(** * WebRadioMonitor: ICY metadata polling (src/index.py)

    A shallow embedding of [WebRadioMonitor.fetch_metadata],
    [WebRadioMonitor.submit_to_listenbrainz] and the body of
    [WebRadioMonitor.run], together with the Python built-ins they call,
    and the properties of the specification proved against them. *)

From Stdlib Require Import Strings.String Strings.Ascii Strings.Byte.
From Stdlib Require Import ZArith NArith List Lia Bool.
Import ListNotations.

Set Implicit Arguments.

(** ** Python values *)

Module Py.

(** A [str] is a sequence of Unicode code points, a [bytes] object a
    sequence of octets. *)
Definition text := list N.
Definition bytes := list byte.

(** ASCII literals of the program, as [str] and as [bytes]. *)
Definition lit (s : string) : text :=
  map N_of_ascii (list_ascii_of_string s).

Definition blit (s : string) : bytes := list_byte_of_string s.

(** Truthiness of a sequence ([if metadata:], [if length:]). *)
Definition truthy {A} (l : list A) : bool :=
  match l with [] => false | _ :: _ => true end.

(** *** Searching and splitting *)

(** [s.startswith(p)] *)
Fixpoint startswith (p s : text) : bool :=
  match p, s with
  | [], _ => true
  | _ :: _, [] => false
  | a :: p', b :: s' => N.eqb a b && startswith p' s'
  end.

(** Leftmost occurrence of [sep] in [s]: what precedes it and what
    follows it ([s.partition(sep)] without the separator), or [None]
    when [sep] does not occur. *)
Fixpoint find (sep s : text) : option (text * text) :=
  match s with
  | [] => if startswith sep [] then Some ([], []) else None
  | c :: s' =>
      if startswith sep s then Some ([], skipn (length sep) s)
      else match find sep s' with
           | Some (before, after) => Some (c :: before, after)
           | None => None
           end
  end.

(** [sub in s] *)
Definition contains (sub s : text) : bool :=
  match find sub s with Some _ => true | None => false end.

(** The splitting loop of [str.split]: at most [count] cuts, each at the
    leftmost occurrence of [sep] in what is left. *)
Fixpoint split_count (count : nat) (sep s : text) : list text :=
  match count with
  | O => [s]
  | S k =>
      match find sep s with
      | None => [s]
      | Some (before, after) => before :: split_count k sep after
      end
  end.

(** [s.split(sep, maxsplit)] for a non-empty [sep]; a negative
    [maxsplit] (the default, -1) puts no limit on the number of cuts, and
    a string of length [n] has at most [n] of them. *)
Definition split (sep : text) (maxsplit : Z) (s : text) : list text :=
  split_count (if (maxsplit <? 0)%Z then length s else Z.to_nat maxsplit)
              sep s.

(** *** Stripping *)

Fixpoint lstrip_by (p : N -> bool) (s : text) : text :=
  match s with
  | [] => []
  | c :: s' => if p c then lstrip_by p s' else s
  end.

Definition rstrip_by (p : N -> bool) (s : text) : text :=
  rev (lstrip_by p (rev s)).

Definition strip_by (p : N -> bool) (s : text) : text :=
  rstrip_by p (lstrip_by p s).

(** [s.strip(chars)]: [chars] is a set of characters. *)
Definition strip_chars (chars s : text) : text :=
  strip_by (fun c => existsb (N.eqb c) chars) s.

(** [c.isspace()] on a code point: the characters of bidirectional type
    WS, B or S and of category Zs. *)
Definition isspace (c : N) : bool :=
  ((9 <=? c) && (c <=? 13) || (28 <=? c) && (c <=? 32)
   || (c =? 133) || (c =? 160) || (c =? 5760)
   || (8192 <=? c) && (c <=? 8202)
   || (c =? 8232) || (c =? 8233) || (c =? 8239) || (c =? 8287)
   || (c =? 12288))%N.

(** [s.strip()] *)
Definition strip (s : text) : text := strip_by isspace s.

(** *** UTF-8 *)

Definition is_continuation (b : N) : bool := ((128 <=? b) && (b <? 192))%N.

(** [bytes.decode('utf-8', errors=...)], after CPython's decoder: the
    input is cut into well-formed sequences and errors; an error covers one
    invalid start byte, or the bytes of a sequence read before the first
    byte that cannot continue it, or a truncated sequence at the end of the
    input. Each error contributes [on_error] to the result: nothing under
    [errors='ignore'], U+FFFD under [errors='replace'].

    [utf8_step] decodes what starts at the byte [c0], followed by [r1];
    [continue] decodes the input from a later position. *)
Definition utf8_step (on_error : text) (continue : bytes -> text)
    (c0 : byte) (r1 : bytes) : text :=
  let ch := Byte.to_N c0 in
  if (ch <? 128)%N then ch :: continue r1
  else if (ch <? 194)%N then on_error ++ continue r1
  else if (ch <? 224)%N then
    match r1 with
    | [] => on_error
    | c1 :: r2 =>
        let ch2 := Byte.to_N c1 in
        if negb (is_continuation ch2)
        then on_error ++ continue r1
        else (N.shiftl ch 6 + ch2 - (N.shiftl 192 6 + 128))%N
               :: continue r2
    end
  else if (ch <? 240)%N then
    match r1 with
    | [] => on_error
    | c1 :: r2 =>
        let ch2 := Byte.to_N c1 in
        if negb (is_continuation ch2)
           || (if (ch2 <? 160)%N then (ch =? 224)%N else (ch =? 237)%N)
        then on_error ++ continue r1
        else
          match r2 with
          | [] => on_error
          | c2 :: r3 =>
              let ch3 := Byte.to_N c2 in
              if negb (is_continuation ch3)
              then on_error ++ continue r2
              else (N.shiftl ch 12 + N.shiftl ch2 6 + ch3
                    - (N.shiftl 224 12 + N.shiftl 128 6 + 128))%N
                     :: continue r3
          end
    end
  else if (ch <? 245)%N then
    match r1 with
    | [] => on_error
    | c1 :: r2 =>
        let ch2 := Byte.to_N c1 in
        if negb (is_continuation ch2)
           || (if (ch2 <? 144)%N then (ch =? 240)%N else (ch =? 244)%N)
        then on_error ++ continue r1
        else
          match r2 with
          | [] => on_error
          | c2 :: r3 =>
              let ch3 := Byte.to_N c2 in
              if negb (is_continuation ch3)
              then on_error ++ continue r2
              else
                match r3 with
                | [] => on_error
                | c3 :: r4 =>
                    let ch4 := Byte.to_N c3 in
                    if negb (is_continuation ch4)
                    then on_error ++ continue r3
                    else (N.shiftl ch 18 + N.shiftl ch2 12
                          + N.shiftl ch3 6 + ch4
                          - (N.shiftl 240 18 + N.shiftl 128 12
                             + N.shiftl 128 6 + 128))%N
                           :: continue r4
                end
          end
    end
  else on_error ++ continue r1.

Fixpoint utf8_decode (on_error : text) (bs : bytes) : text :=
  match bs with
  | [] => []
  | c0 :: r1 => utf8_step on_error (utf8_decode on_error) c0 r1
  end.

(** [b.decode('utf-8', errors='ignore')] *)
Definition decode_ignore (bs : bytes) : text := utf8_decode [] bs.

(** [b.decode('utf-8', errors='replace')] *)
Definition decode_replace (bs : bytes) : text := utf8_decode [65533%N] bs.

(** The octet of value [n] (for [n < 256]). *)
Definition octet (n : N) : byte :=
  match Byte.of_N n with Some b => b | None => x00 end.

(** A Unicode scalar value: a code point that is not a surrogate. *)
Definition is_scalar (c : N) : bool :=
  ((c <? 55296) || (57344 <=? c) && (c <? 1114112))%N.

(** The UTF-8 encoding of one scalar value, and [s.encode('utf-8')]. *)
Definition utf8_encode_char (c : N) : bytes :=
  if (c <? 128)%N then [octet c]
  else if (c <? 2048)%N then
    [octet (192 + c / 64); octet (128 + c mod 64)]%N
  else if (c <? 65536)%N then
    [octet (224 + c / 4096); octet (128 + (c / 64) mod 64);
     octet (128 + c mod 64)]%N
  else
    [octet (240 + c / 262144); octet (128 + (c / 4096) mod 64);
     octet (128 + (c / 64) mod 64); octet (128 + c mod 64)]%N.

Definition utf8_encode (s : text) : bytes := flat_map utf8_encode_char s.

End Py.

(** ** The response body and the exceptions of the program *)

Module Raw.
Import Py.

(** A Python computation returns a value or raises. Every exception of
    [fetch_metadata] is caught by its single [except Exception], so one
    constructor stands for all of them. *)
Inductive outcome (A : Type) : Type :=
| Raise
| Ret (a : A).
Arguments Raise {A}.

Definition obind {A B} (m : outcome A) (k : A -> outcome B) : outcome B :=
  match m with
  | Raise => Raise
  | Ret a => k a
  end.

(** How the body of the response ends: the server closes the stream, and
    a read past the end returns the bytes that are left ([Eof]); or the
    transport fails (reset, timeout, incomplete read), and a read past the
    end raises ([Fault]). *)
Inductive ending : Type := Eof | Fault.

(** The three calls of [response.raw.read] in [fetch_metadata]: the audio
    skip (line 45), the length byte (line 46), the block (line 50). *)
Inductive site : Type := Audio | Length | Block.

Definition site_eqb (a b : site) : bool :=
  match a, b with
  | Audio, Audio | Length, Length | Block, Block => true
  | _, _ => false
  end.

(** [response.raw]: the bytes not read yet, how they end, and the calls
    of [read] made so far, oldest first, each with the amount it asked
    for. *)
Record cursor : Type := {
  remaining : bytes;
  at_end : ending;
  reads : list (site * Z)
}.

(** Statements that read from the body. *)
Definition io (A : Type) : Type := cursor -> outcome A * cursor.

Definition ret {A} (a : A) : io A := fun c => (Ret a, c).

Definition bind {A B} (m : io A) (k : A -> io B) : io B :=
  fun c =>
    match m c with
    | (Raise, c') => (Raise, c')
    | (Ret a, c') => k a c'
    end.

Definition lift {A} (o : outcome A) : io A := fun c => (o, c).

(** [response.raw.read(amt)]: up to [amt] bytes, fewer only at the end of
    the body; a negative [amt] asks for everything up to the end. *)
Definition read (st : site) (amt : Z) : io bytes :=
  fun c =>
    let log := reads c ++ [(st, amt)] in
    let past_end :=
      match at_end c with
      | Eof => (Ret (remaining c),
                {| remaining := []; at_end := Eof; reads := log |})
      | Fault => (Raise,
                  {| remaining := []; at_end := Fault; reads := log |})
      end in
    if (amt <? 0)%Z then past_end
    else
      let n := Z.to_nat amt in
      if (n <=? length (remaining c))%nat
      then (Ret (firstn n (remaining c)),
            {| remaining := skipn n (remaining c);
               at_end := at_end c; reads := log |})
      else past_end.

(** [ord(b)] on a [bytes] object: defined on length 1 only. *)
Definition ord (b : bytes) : outcome Z :=
  match b with
  | [x] => Ret (Z.of_N (Byte.to_N x))
  | _ => Raise
  end.

(** [l[i]] *)
Definition index {A} (l : list A) (i : nat) : outcome A :=
  match nth_error l i with
  | Some x => Ret x
  | None => Raise
  end.

End Raw.

Declare Scope io_scope.
Delimit Scope io_scope with io.
Notation "x <- m ;; k" := (Raw.bind m (fun x => k))
  (at level 61, m at next level, right associativity) : io_scope.
Notation "x <~ m ;; k" := (Raw.obind m (fun x => k))
  (at level 61, m at next level, right associativity) : io_scope.

(** ** WebRadioMonitor *)

Module Monitor.
Import Py Raw.
Local Open Scope io_scope.

(** The dict with the keys ['artist'] and ['track'] that [fetch_metadata]
    returns. *)
Record TrackInfo : Type := {
  artist : text;
  track : text
}.

Fixpoint text_eqb (a b : text) : bool :=
  match a, b with
  | [], [] => true
  | x :: a', y :: b' => N.eqb x y && text_eqb a' b'
  | _, _ => false
  end.

(** [==] on two such dicts. *)
Definition TrackInfo_eqb (a b : TrackInfo) : bool :=
  text_eqb (artist a) (artist b) && text_eqb (track a) (track b).

(** What [int(response.headers['icy-metaint'])] makes of the header. *)
Inductive int_outcome : Type :=
| ValueError
| IntOk (n : Z).

(** The two headers [fetch_metadata] looks at; [None] when the key is not
    in [response.headers]. *)
Record Headers : Type := {
  icy_metaint : option int_outcome;
  icy_name : option text
}.

(** What [requests.get(..., stream=True, timeout=15)] does: it raises, or
    it gives a response with headers and a body to read. *)
Inductive get_outcome : Type :=
| GetRaised
| GetOk (headers : Headers) (body : bytes) (e : ending).

(** Line 53: the title out of a block that holds [StreamTitle=]. *)
Definition extract_title (metadata : text) : outcome text :=
  a <~ index (split (lit "StreamTitle=") (-1) metadata) 1 ;;
  b <~ index (split (lit ";") (-1) a) 0 ;;
  Ret (strip_chars (lit "'") b).

(** Lines 54-64: artist and track out of the title. *)
Definition split_title (title : text) : outcome TrackInfo :=
  if contains (lit " - ") title then
    match split (lit " - ") 1 title with
    | [a; t] => Ret {| artist := strip a; track := strip t |}
    | _ => Raise
    end
  else Ret {| artist := lit "Unknown Artist"; track := strip title |}.

(** Lines 45-64: the body of the loop. [Some t] is [return t]; [None]
    lets the loop go on. *)
Definition window (metaint : Z) : io (option TrackInfo) :=
  _ <- read Audio metaint ;;
  length <- read Length 1 ;;
  if truthy length then
    n <- lift (ord length) ;;
    let length := (n * 16)%Z in
    if (length >? 0)%Z then
      raw <- read Block length ;;
      let metadata := decode_ignore raw in
      if truthy metadata then
        if contains (lit "StreamTitle=") metadata then
          title <- lift (extract_title metadata) ;;
          t <- lift (split_title title) ;;
          ret (Some t)
        else ret None
      else ret None
    else ret None
  else ret None.

(** Lines 44-64: [for _ in range(n)]. *)
Fixpoint scan (n : nat) (metaint : Z) : io (option TrackInfo) :=
  match n with
  | O => ret None
  | S k =>
      r <- window metaint ;;
      match r with
      | Some t => ret (Some t)
      | None => scan k metaint
      end
  end.

(** Lines 66-73: what follows the scan. *)
Definition fallback (h : Headers) : option TrackInfo :=
  match icy_name h with
  | Some name => Some {| artist := name; track := lit "Current Track" |}
  | None => None
  end.

(** Lines 42-73: the [try] block after the request. *)
Definition fetch_body (h : Headers) : io (option TrackInfo) :=
  found <- match icy_metaint h with
           | Some v =>
               metaint <- lift (match v with
                                | IntOk n => Ret n
                                | ValueError => Raise
                                end) ;;
               scan 10 metaint
           | None => ret None
           end ;;
  match found with
  | Some t => ret (Some t)
  | None => ret (fallback h)
  end.

(** [fetch_metadata], with the reads it made on the body. *)
Definition fetch_metadata_trace (g : get_outcome)
  : option TrackInfo * list (site * Z) :=
  match g with
  | GetRaised => (None, [])
  | GetOk h body e =>
      let (o, c) :=
        fetch_body h {| remaining := body; at_end := e; reads := [] |} in
      (match o with Ret r => r | Raise => None end, reads c)
  end.

Definition fetch_metadata (g : get_outcome) : option TrackInfo :=
  fst (fetch_metadata_trace g).

(** *** The parts of the loop body taken alone *)

(** Lines 45-50, the frame decoder: skip the audio, read the length
    byte, read and decode the block. The block is empty when none is
    read. *)
Definition next_block (metaint : Z) : io text :=
  _ <- read Audio metaint ;;
  length <- read Length 1 ;;
  if truthy length then
    n <- lift (ord length) ;;
    let length := (n * 16)%Z in
    if (length >? 0)%Z then
      raw <- read Block length ;;
      ret (decode_ignore raw)
    else ret []
  else ret [].

(** Lines 51-64, the normalizer: the track of a block, if it has one. *)
Definition normalize (metadata : text) : outcome (option TrackInfo) :=
  if truthy metadata then
    if contains (lit "StreamTitle=") metadata then
      title <~ extract_title metadata ;;
      t <~ split_title title ;;
      Ret (Some t)
    else Ret None
  else Ret None.

(** *** Submission and the polling loop *)

(** What [requests.post(..., timeout=10)] does. *)
Inductive post_outcome : Type :=
| PostTimeout
| PostRequestException
| PostException
| PostStatus (status_code : Z).

(** [submit_to_listenbrainz]; the two [isinstance] tests hold of every
    [TrackInfo]. *)
Definition submit_to_listenbrainz (metadata : option TrackInfo)
    (net : post_outcome) : bool :=
  match metadata with
  | None => false
  | Some _ =>
      match net with
      | PostStatus status_code =>
          if negb (status_code =? 200)%Z then false else true
      | _ => false
      end
  end.

(** Line 138: [metadata and metadata != self.last_track]. A dict with
    two keys is true. *)
Definition is_new (metadata last_track : option TrackInfo) : bool :=
  match metadata with
  | None => false
  | Some m =>
      match last_track with
      | None => true
      | Some l => negb (TrackInfo_eqb m l)
      end
  end.

(** Whether a cycle takes the branch of line 138 (logs the new track and
    submits it) or not. *)
Inductive decision : Type := Report | Skip.

(** Lines 138-144: one cycle after the fetch; the new [self.last_track]
    and what the cycle did. *)
Definition observe (last_track metadata : option TrackInfo)
    (net : post_outcome) : option TrackInfo * decision :=
  if is_new metadata last_track then
    if submit_to_listenbrainz metadata net
    then (metadata, Report)
    else (last_track, Report)
  else (last_track, Skip).

(** The cycles of [run] over what the fetches return. *)
Fixpoint run_on (last_track : option TrackInfo)
    (obs : list (option TrackInfo * post_outcome))
  : option TrackInfo * list decision :=
  match obs with
  | [] => (last_track, [])
  | (metadata, net) :: rest =>
      let (last', d) := observe last_track metadata net in
      let (final, ds) := run_on last' rest in
      (final, d :: ds)
  end.

(** A prefix of [run]: one cycle for each answer of the network, from
    [self.last_track = None] when [last_track] is [None]. *)
Definition run (last_track : option TrackInfo)
    (world : list (get_outcome * post_outcome))
  : option TrackInfo * list decision :=
  run_on last_track
         (map (fun w => (fetch_metadata (fst w), snd w)) world).

End Monitor.

Unset Implicit Arguments.

Import Py Raw Monitor.
Local Open Scope io_scope.


Import Py Raw Monitor.
Local Open Scope io_scope.

(** ** Vocabulary of the specification *)

(** [sep] occurs in [s] between [a] and [b], and nowhere further left. *)
Definition first_at (sep s a b : text) : Prop :=
  s = a ++ sep ++ b /\
  forall a' b', s = a' ++ sep ++ b' -> length a <= length a'.

(** [t] is [s] without the characters of class [p] that surround it. *)
Definition trimmed (p : N -> bool) (s t : text) : Prop :=
  exists l r,
    s = l ++ t ++ r /\ forallb p l = true /\ forallb p r = true /\
    (forall c t', t = c :: t' -> p c = false) /\
    (forall c t', t = t' ++ [c] -> p c = false).

(** Every code point of [s] is a Unicode scalar value. *)
Definition scalar_text (s : text) : Prop := Forall (fun c => is_scalar c = true) s.

(** [t] is [t'] without some of its replacement characters U+FFFD. *)
Inductive without_marks : text -> text -> Prop :=
| wm_nil : without_marks [] []
| wm_keep (c : N) (t t' : text) :
    without_marks t t' -> without_marks (c :: t) (c :: t')
| wm_drop (t t' : text) :
    without_marks t t' -> without_marks t (65533%N :: t').

(** The reads of the log made at site [st]. *)
Definition reads_at (st : site) (log : list (site * Z)) : nat :=
  length (filter (fun r => site_eqb (fst r) st) log).

(** The body has ended in order before the next length byte. *)
Definition drained (metaint : Z) (c : cursor) : Prop :=
  at_end c = Eof /\
  (metaint < 0 \/ Z.of_nat (length (remaining c)) <= metaint)%Z.

(** [sep.join(parts)] *)
Fixpoint join (sep : text) (parts : list text) : text :=
  match parts with
  | [] => []
  | [p] => p
  | p :: rest => p ++ sep ++ join sep rest
  end.

(** The first piece of [s.split(sep)]: [s] up to the first [sep]. *)
Definition upto (sep s : text) : text :=
  match find sep s with
  | Some (before, _) => before
  | None => s
  end.

(** [s] neither starts nor ends with white space. *)
Definition clean (s : text) : Prop :=
  (forall c r, s = c :: r -> isspace c = false) /\
  (forall c r, s = r ++ [c] -> isspace c = false).

(** One window of the body as the server sends it: the audio, the length
    byte, the block. *)
Record frame : Type := {
  audio : bytes;
  length_byte : byte;
  block : bytes
}.

Definition frame_bytes (f : frame) : bytes :=
  audio f ++ length_byte f :: block f.

Definition frames_bytes (fs : list frame) : bytes :=
  concat (map frame_bytes fs).

(** The frame has [metaint] bytes of audio and the block its length byte
    announces. *)
Definition well_framed (metaint : Z) (f : frame) : Prop :=
  length (audio f) = Z.to_nat metaint /\
  length (block f) = 16 * N.to_nat (Byte.to_N (length_byte f)).

(** The reads a window makes on a frame. *)
Definition frame_reads (metaint : Z) (f : frame) : list (site * Z) :=
  if (Byte.to_N (length_byte f) =? 0)%N
  then [(Audio, metaint); (Length, 1%Z)]
  else [(Audio, metaint); (Length, 1%Z);
        (Block, (Z.of_N (Byte.to_N (length_byte f)) * 16)%Z)].

(** The frame holds no title. *)
Definition silent (f : frame) : Prop :=
  normalize (decode_ignore (block f)) = Ret None.

(** The amount a read asks for, by its site. *)
Definition well_sized (metaint : Z) (r : site * Z) : Prop :=
  match fst r with
  | Audio => snd r = metaint
  | Length => snd r = 1%Z
  | Block => (16 <= snd r <= 4080)%Z /\ (snd r mod 16 = 0)%Z
  end.

(** Lossy decoding, said without the decoder: read from left to right, the
    bytes that are the UTF-8 encoding of a scalar value give that character,
    and a byte at which no such encoding starts is dropped. *)
Inductive lossy : bytes -> text -> Prop :=
| lossy_nil : lossy [] []
| lossy_keep (c : N) (rest : bytes) (t : text) :
    is_scalar c = true -> lossy rest t ->
    lossy (utf8_encode_char c ++ rest) (c :: t)
| lossy_drop (b : byte) (rest : bytes) (t : text) :
    (forall c r, is_scalar c = true -> b :: rest <> utf8_encode_char c ++ r) ->
    lossy rest t ->
    lossy (b :: rest) t.

(** What one step of the decoder does at [c0 :: r1], seen on its result
    under [errors='ignore'] ([kept]) and on its result when an error leaves
    the mark 1114112, which is no code point ([marked]): it decodes the
    encoding of a scalar value, or it meets an error and drops [c0]. *)
Definition step_case (c0 : byte) (r1 : bytes) (kept marked : text) : Prop :=
  (exists cp r',
      is_scalar cp = true /\ c0 :: r1 = utf8_encode_char cp ++ r' /\
      kept = cp :: utf8_decode [] r')
  \/ ((exists t, marked = 1114112%N :: t) /\ kept = utf8_decode [] r1).

(** ** Strings *)

Lemma startswith_app (p r : text) : startswith p (p ++ r) = true.
Proof.
  induction p as [|a p IH]; simpl.
  - reflexivity.
  - now rewrite N.eqb_refl, IH.
Qed.

Lemma startswith_inv (p s : text) :
  startswith p s = true -> exists r, s = p ++ r.
Proof.
  revert s; induction p as [|a p IH]; intros s H.
  - now exists s.
  - destruct s as [|b s]; simpl in H; [discriminate|].
    apply andb_prop in H as [Hab Hps].
    apply N.eqb_eq in Hab; subst b.
    destruct (IH _ Hps) as [r ->].
    now exists r.
Qed.

Lemma skipn_length_app {A} (p r : list A) : skipn (length p) (p ++ r) = r.
Proof. induction p; simpl; auto. Qed.

Lemma find_first (sep s a b : text) :
  find sep s = Some (a, b) -> first_at sep s a b.
Proof.
  revert a b; induction s as [|c s IH]; intros a b H.
  - simpl in H. destruct (startswith sep []) eqn:E; [|discriminate].
    inversion H; subst; clear H.
    apply startswith_inv in E as [r E].
    symmetry in E. apply app_eq_nil in E as [-> ->].
    split; [reflexivity|]. intros; simpl; lia.
  - cbn [find] in H. destruct (startswith sep (c :: s)) eqn:E.
    + inversion H; subst; clear H.
      apply startswith_inv in E as [r E].
      rewrite E, skipn_length_app.
      split; [reflexivity|]. intros; simpl; lia.
    + destruct (find sep s) as [[a0 b0]|] eqn:F; [|discriminate].
      inversion H; subst; clear H.
      destruct (IH _ _ eq_refl) as [Hs Hmin].
      split.
      * simpl. now rewrite <- Hs.
      * intros a' b' Heq. destruct a' as [|c' a'].
        -- simpl in Heq. rewrite Heq, startswith_app in E. discriminate.
        -- simpl in Heq. inversion Heq; subst c'.
           simpl. apply le_n_S. eapply Hmin. eassumption.
Qed.

Lemma find_absent (sep s : text) :
  find sep s = None -> forall a b, s <> a ++ sep ++ b.
Proof.
  induction s as [|c s IH]; intros H a b Heq.
  - simpl in H. symmetry in Heq.
    apply app_eq_nil in Heq as [_ Heq]. apply app_eq_nil in Heq as [-> _].
    discriminate.
  - cbn [find] in H. destruct (startswith sep (c :: s)) eqn:E; [discriminate|].
    destruct (find sep s) as [[a0 b0]|] eqn:F; [discriminate|].
    destruct a as [|c' a].
    + simpl in Heq. rewrite Heq, startswith_app in E. discriminate.
    + simpl in Heq. inversion Heq; subst.
      now apply (IH eq_refl a b).
Qed.

Lemma app_eq_length_inv {A} (a a' r r' : list A) :
  length a = length a' -> a ++ r = a' ++ r' -> a = a' /\ r = r'.
Proof.
  revert a'; induction a as [|x a IH]; intros [|y a'] L H;
    simpl in *; try discriminate; auto.
  inversion H; subst. destruct (IH a') as [-> E]; auto.
Qed.

Lemma first_at_unique (sep s a b a' b' : text) :
  first_at sep s a b -> first_at sep s a' b' -> a = a' /\ b = b'.
Proof.
  intros [H1 M1] [H2 M2].
  assert (L : length a = length a').
  { apply Nat.le_antisymm; [eapply M1 | eapply M2]; eassumption. }
  rewrite H1 in H2.
  destruct (app_eq_length_inv _ _ _ _ L H2) as [-> E].
  apply app_inv_head in E. auto.
Qed.

Lemma first_at_find (sep s a b : text) :
  first_at sep s a b -> find sep s = Some (a, b).
Proof.
  intros H. destruct (find sep s) as [[a0 b0]|] eqn:F.
  - apply find_first in F.
    destruct (first_at_unique _ _ _ _ _ _ F H) as [-> ->]. reflexivity.
  - destruct H as [H _]. now apply (find_absent _ _ F) in H.
Qed.

Lemma contains_true (sub s : text) :
  contains sub s = true -> exists a b, find sub s = Some (a, b).
Proof.
  unfold contains. destruct (find sub s) as [[a b]|]; [eauto|discriminate].
Qed.

Lemma contains_false (sub s : text) :
  contains sub s = false -> find sub s = None.
Proof.
  unfold contains. destruct (find sub s) as [[a b]|]; [discriminate|auto].
Qed.

Lemma find_shorter (sep s a b : text) :
  find sep s = Some (a, b) -> length s = length a + length sep + length b.
Proof.
  intros H. apply find_first in H as [-> _].
  rewrite !length_app. lia.
Qed.

(** A count of cuts beyond the length of the string changes nothing: the
    unlimited [split] is the loop run to its end. *)
Lemma split_count_enough (sep : text) (k1 k2 : nat) (s : text) :
  sep <> [] -> length s <= k1 -> length s <= k2 ->
  split_count k1 sep s = split_count k2 sep s.
Proof.
  intros Hsep. revert k2 s.
  assert (Z0 : forall k s, length s <= 0 -> split_count k sep s = [s]).
  { intros k s Hs. destruct s; [|simpl in Hs; lia].
    destruct k; simpl; auto.
    destruct sep; [congruence|]. reflexivity. }
  induction k1 as [|k1 IH]; intros k2 s H1 H2.
  - rewrite (Z0 k2 s H1). reflexivity.
  - destruct k2 as [|k2]; [now rewrite (Z0 (S k1) s H2)|].
    simpl. destruct (find sep s) as [[a b]|] eqn:F; [|reflexivity].
    apply find_shorter in F. f_equal.
    assert (0 < length sep) by (destruct sep; [congruence|simpl; lia]).
    apply IH; lia.
Qed.

Lemma split_count_nonempty (k : nat) (sep s : text) :
  exists x rest, split_count k sep s = x :: rest.
Proof.
  destruct k; simpl; eauto.
  destruct (find sep s) as [[a b]|]; eauto.
Qed.

(** *** Stripping *)

Lemma lstrip_by_spec (p : N -> bool) (s : text) :
  exists l, s = l ++ lstrip_by p s /\ forallb p l = true /\
            forall c t', lstrip_by p s = c :: t' -> p c = false.
Proof.
  induction s as [|c s (l & E & Hl & Hh)]; simpl.
  - exists []. repeat split; auto. discriminate.
  - destruct (p c) eqn:Pc.
    + exists (c :: l). simpl. rewrite Pc, Hl. repeat split; auto.
      now rewrite <- E.
    + exists []. repeat split; auto. intros c0 t' H. now inversion H; subst.
Qed.

Lemma forallb_rev {A} (p : A -> bool) (l : list A) :
  forallb p (rev l) = forallb p l.
Proof.
  induction l; simpl; auto.
  rewrite forallb_app, IHl. simpl. rewrite andb_true_r. apply andb_comm.
Qed.

Lemma rstrip_by_spec (p : N -> bool) (s : text) :
  exists r, s = rstrip_by p s ++ r /\ forallb p r = true /\
            forall c t', rstrip_by p s = t' ++ [c] -> p c = false.
Proof.
  unfold rstrip_by.
  destruct (lstrip_by_spec p (rev s)) as (l & E & Hl & Hh).
  exists (rev l). repeat split.
  - rewrite <- rev_app_distr, <- E. now rewrite rev_involutive.
  - now rewrite forallb_rev.
  - intros c t' H. apply (Hh c (rev t')).
    rewrite <- (rev_involutive (lstrip_by p (rev s))), H.
    now rewrite rev_app_distr.
Qed.

Lemma strip_by_trimmed (p : N -> bool) (s : text) : trimmed p s (strip_by p s).
Proof.
  unfold strip_by.
  destruct (lstrip_by_spec p s) as (l & E & Hl & Hh).
  destruct (rstrip_by_spec p (lstrip_by p s)) as (r & E' & Hr & Ht).
  exists l, r. repeat split; auto.
  - now rewrite <- E', <- E.
  - intros c t' H. rewrite H in E'. simpl in E'. eapply Hh. exact E'.
Qed.

(** ** UTF-8 *)

Lemma octet_to_N (n : N) : (n < 256)%N -> Byte.to_N (octet n) = n.
Proof.
  intros H. unfold octet. destruct (Byte.of_N n) eqn:E.
  - now apply Byte.to_of_N.
  - apply Byte.of_N_None_iff in E. lia.
Qed.

Lemma to_N_lt (b : byte) : (Byte.to_N b < 256)%N.
Proof. pose proof (Byte.to_N_bounded b). lia. Qed.

Ltac decide_cond :=
  match goal with
  | |- context [(?a <? ?b)%N] =>
      first [ rewrite (proj2 (N.ltb_lt a b)) by lia
            | rewrite (proj2 (N.ltb_ge a b)) by lia
            | destruct (N.ltb_spec a b) ]
  | |- context [(?a <=? ?b)%N] =>
      first [ rewrite (proj2 (N.leb_le a b)) by lia
            | rewrite (proj2 (N.leb_gt a b)) by lia ]
  | |- context [(?a =? ?b)%N] =>
      first [ rewrite (proj2 (N.eqb_eq a b)) by lia
            | rewrite (proj2 (N.eqb_neq a b)) by lia ]
  end.

Lemma base64_digits (c : N) :
  exists r0 r1 r2 q3 : N,
    (c mod 64 = r0 /\ (c / 64) mod 64 = r1 /\ (c / 4096) mod 64 = r2 /\
     c / 262144 = q3 /\ c / 4096 = 64 * q3 + r2 /\
     c / 64 = 4096 * q3 + 64 * r2 + r1 /\
     c = 262144 * q3 + 4096 * r2 + 64 * r1 + r0 /\
     r0 < 64 /\ r1 < 64 /\ r2 < 64)%N.
Proof.
  exists (c mod 64)%N, ((c / 64) mod 64)%N, ((c / 4096) mod 64)%N, (c / 262144)%N.
  assert (E1 : (c / 4096 = c / 64 / 64)%N) by (rewrite N.Div0.div_div; reflexivity).
  assert (E2 : (c / 262144 = c / 64 / 64 / 64)%N) by (rewrite !N.Div0.div_div; reflexivity).
  rewrite E2, E1.
  pose proof (N.div_mod c 64 ltac:(lia)).
  pose proof (N.mod_lt c 64 ltac:(lia)).
  pose proof (N.div_mod (c / 64) 64 ltac:(lia)).
  pose proof (N.mod_lt (c / 64) 64 ltac:(lia)).
  pose proof (N.div_mod (c / 64 / 64) 64 ltac:(lia)).
  pose proof (N.mod_lt (c / 64 / 64) 64 ltac:(lia)).
  repeat split; try lia.
Qed.

Lemma utf8_decode_cons (e : text) (c0 : byte) (r1 : bytes) :
  utf8_decode e (c0 :: r1) = utf8_step e (utf8_decode e) c0 r1.
Proof. reflexivity. Qed.

Lemma is_scalar_inv (c : N) :
  is_scalar c = true -> (c < 55296 \/ 57344 <= c < 1114112)%N.
Proof.
  unfold is_scalar. intros Hc.
  apply orb_prop in Hc as [H|H].
  - apply N.ltb_lt in H. lia.
  - apply andb_prop in H as [H1 H2].
    apply N.leb_le in H1. apply N.ltb_lt in H2. lia.
Qed.

Lemma utf8_decode_encode_char (e : text) (c : N) (rest : bytes) :
  is_scalar c = true ->
  utf8_decode e (utf8_encode_char c ++ rest) = c :: utf8_decode e rest.
Proof.
  intros Hs. apply is_scalar_inv in Hs. unfold utf8_encode_char.
  destruct (base64_digits c)
    as (r0 & r1 & r2 & q3 & E0 & E1 & E2 & E3 & E4 & E5 & Ec & B0 & B1 & B2).
  destruct (N.ltb_spec c 128);
    [|destruct (N.ltb_spec c 2048); [|destruct (N.ltb_spec c 65536)]];
    rewrite ?E0, ?E1, ?E2, ?E3, ?E4, ?E5; cbn [app];
    rewrite utf8_decode_cons; cbv beta iota zeta delta [utf8_step is_continuation];
    rewrite !octet_to_N by lia; rewrite ?N.shiftl_mul_pow2;
    repeat (decide_cond; cbn [negb orb andb]); f_equal; lia.
Qed.

Lemma utf8_decode_encode (e : text) (t : text) (rest : bytes) :
  scalar_text t ->
  utf8_decode e (utf8_encode t ++ rest) = t ++ utf8_decode e rest.
Proof.
  induction 1 as [|c t Hc _ IH]; simpl.
  - reflexivity.
  - rewrite <- app_assoc, utf8_decode_encode_char by assumption.
    now rewrite IH.
Qed.

(** A byte that starts no sequence is an error of its own. *)
Lemma utf8_decode_invalid_start (e : text) (b : byte) (rest : bytes) :
  (128 <= Byte.to_N b < 194 \/ 245 <= Byte.to_N b)%N ->
  utf8_decode e (b :: rest) = e ++ utf8_decode e rest.
Proof.
  intros H. rewrite utf8_decode_cons.
  cbv beta iota zeta delta [utf8_step].
  repeat (decide_cond; cbn [negb orb andb]); reflexivity.
Qed.

Ltac head_split :=
  match goal with
  | |- Forall _ (if ?X then _ else _) =>
      match X with
      | context [(?a <? ?b)%N] => destruct (N.ltb_spec a b)
      | context [(?a <=? ?b)%N] => destruct (N.leb_spec a b)
      | context [(?a =? ?b)%N] => destruct (N.eqb_spec a b)
      end
  | |- Forall _ (match ?l with [] => _ | _ :: _ => _ end) => destruct l
  end; cbn [negb orb andb].

Lemma is_scalar_intro (c : N) :
  (c < 55296 \/ 57344 <= c < 1114112)%N -> is_scalar c = true.
Proof.
  intros H. unfold is_scalar.
  repeat (decide_cond; cbn [negb orb andb]); reflexivity || lia.
Qed.

(** Whatever the bytes, the decoder yields well-formed text. *)
Lemma utf8_decode_scalar (e : text) (bs : bytes) :
  scalar_text e -> scalar_text (utf8_decode e bs).
Proof.
  unfold scalar_text. intros He.
  assert (G : forall n bs, length bs <= n ->
                           Forall (fun c => is_scalar c = true) (utf8_decode e bs)).
  { clear bs. induction n as [|n IH]; intros [|c0 r1] Hn; simpl in Hn;
      try (constructor; fail); try lia.
    rewrite utf8_decode_cons.
    cbv beta iota zeta delta [utf8_step is_continuation].
    repeat rewrite N.shiftl_mul_pow2.
    repeat head_split;
      repeat match goal with
        | |- Forall _ (_ ++ _) => apply Forall_app; split
        | |- Forall _ (_ :: _) => constructor; [apply is_scalar_intro; repeat rewrite N.shiftl_mul_pow2; lia|]
        | |- Forall _ (utf8_decode _ _) => apply IH; simpl in *; lia
        | |- Forall _ e => exact He
        end. }
  apply (G (length bs)). lia.
Qed.

(** ** Reading the body *)

Lemma read_full (st : site) (amt : Z) (pre rest : bytes) (e : ending)
    (log : list (site * Z)) :
  (0 <= amt)%Z -> length pre = Z.to_nat amt ->
  read st amt {| remaining := pre ++ rest; at_end := e; reads := log |}
  = (Ret pre, {| remaining := rest; at_end := e; reads := log ++ [(st, amt)] |}).
Proof.
  intros H0 Hl. unfold read; cbn [remaining at_end reads].
  rewrite (proj2 (Z.ltb_ge amt 0)) by lia.
  rewrite <- Hl.
  rewrite (proj2 (Nat.leb_le _ _)) by (rewrite length_app; lia).
  rewrite firstn_app, Nat.sub_diag, firstn_all, firstn_O, app_nil_r.
  now rewrite skipn_length_app.
Qed.

Lemma read_past_end (st : site) (amt : Z) (rem : bytes) (e : ending)
    (log : list (site * Z)) :
  (amt < 0 \/ Z.of_nat (length rem) < amt)%Z ->
  read st amt {| remaining := rem; at_end := e; reads := log |}
  = (match e with Eof => Ret rem | Fault => Raise end,
     {| remaining := []; at_end := e; reads := log ++ [(st, amt)] |}).
Proof.
  intros H. unfold read; cbn [remaining at_end reads].
  destruct (Z.ltb_spec amt 0).
  - destruct e; reflexivity.
  - rewrite (proj2 (Nat.leb_gt _ _)) by lia.
    destruct e; reflexivity.
Qed.

Lemma read_log (st : site) (amt : Z) (c : cursor) :
  reads (snd (read st amt c)) = reads c ++ [(st, amt)].
Proof.
  unfold read. destruct (amt <? 0)%Z, (at_end c); cbn;
    try reflexivity; destruct (_ <=? _)%nat; reflexivity.
Qed.

(** The loop body is the frame decoder followed by the normalizer. *)
Lemma window_factor (metaint : Z) (c : cursor) :
  window metaint c
  = (metadata <- next_block metaint ;; lift (normalize metadata)) c.
Proof.
  unfold window, next_block, bind, lift, ret, normalize, obind.
  destruct (read Audio metaint c) as [[|?] c1]; [reflexivity|].
  destruct (read Length 1 c1) as [[|len] c2]; [reflexivity|].
  destruct (truthy len); [|reflexivity].
  destruct (ord len) as [|n]; [reflexivity|].
  destruct (n * 16 >? 0)%Z; [|reflexivity].
  destruct (read Block (n * 16) c2) as [[|raw] c3]; [reflexivity|].
  destruct (truthy (decode_ignore raw)); [|reflexivity].
  destruct (contains _ _); [|reflexivity].
  destruct (extract_title _); [reflexivity|].
  destruct (split_title _); reflexivity.
Qed.

Lemma scan_S (k : nat) (metaint : Z) (c : cursor) :
  scan (S k) metaint c
  = match window metaint c with
    | (Raise, c') => (Raise, c')
    | (Ret (Some t), c') => (Ret (Some t), c')
    | (Ret None, c') => scan k metaint c'
    end.
Proof.
  cbn [scan]. unfold bind. destruct (window metaint c) as [[|[t|]] c']; reflexivity.
Qed.

(** The frame decoder on a whole window. *)
Lemma next_block_full (metaint : Z) (filler : bytes) (lb : byte)
    (mb rest : bytes) (e : ending) (log : list (site * Z)) :
  (0 <= metaint)%Z -> length filler = Z.to_nat metaint ->
  (0 < Byte.to_N lb)%N -> length mb = 16 * N.to_nat (Byte.to_N lb) ->
  next_block metaint
    {| remaining := filler ++ lb :: mb ++ rest; at_end := e; reads := log |}
  = (Ret (decode_ignore mb),
     {| remaining := rest; at_end := e;
        reads := log ++ [(Audio, metaint); (Length, 1%Z);
                         (Block, (Z.of_N (Byte.to_N lb) * 16)%Z)] |}).
Proof.
  intros Hm Hf Hlb Hmb. unfold next_block, bind.
  rewrite read_full by assumption.
  change (lb :: mb ++ rest) with ([lb] ++ mb ++ rest).
  rewrite read_full by (auto; lia).
  cbn [truthy lift ord].
  rewrite (proj2 (Z.gtb_gt _ _)) by lia.
  rewrite read_full by lia.
  unfold ret. now rewrite <- !app_assoc.
Qed.

(** A length byte of zero: no block is read. *)
Lemma next_block_zero (metaint : Z) (filler : bytes) (lb : byte)
    (rest : bytes) (e : ending) (log : list (site * Z)) :
  (0 <= metaint)%Z -> length filler = Z.to_nat metaint ->
  Byte.to_N lb = 0%N ->
  next_block metaint
    {| remaining := filler ++ lb :: rest; at_end := e; reads := log |}
  = (Ret [],
     {| remaining := rest; at_end := e;
        reads := log ++ [(Audio, metaint); (Length, 1%Z)] |}).
Proof.
  intros Hm Hf Hlb. unfold next_block, bind.
  rewrite read_full by assumption.
  change (lb :: rest) with ([lb] ++ rest).
  rewrite read_full by (auto; lia).
  cbn [truthy lift ord]. rewrite Hlb. cbn.
  unfold ret. now rewrite <- !app_assoc.
Qed.

(** The frame decoder when the body ends inside the block. *)
Lemma next_block_short (metaint : Z) (filler : bytes) (lb : byte)
    (partial : bytes) (e : ending) (log : list (site * Z)) :
  (0 <= metaint)%Z -> length filler = Z.to_nat metaint ->
  length partial < 16 * N.to_nat (Byte.to_N lb) ->
  next_block metaint
    {| remaining := filler ++ lb :: partial; at_end := e; reads := log |}
  = (match e with Eof => Ret (decode_ignore partial) | Fault => Raise end,
     {| remaining := []; at_end := e;
        reads := log ++ [(Audio, metaint); (Length, 1%Z);
                         (Block, (Z.of_N (Byte.to_N lb) * 16)%Z)] |}).
Proof.
  intros Hm Hf Hp. unfold next_block, bind.
  rewrite read_full by assumption.
  change (lb :: partial) with ([lb] ++ partial).
  rewrite read_full by (auto; lia).
  cbn [truthy lift ord].
  rewrite (proj2 (Z.gtb_gt _ _)) by lia.
  rewrite read_past_end by lia.
  rewrite <- !app_assoc. destruct e; reflexivity.
Qed.

(** Once the body has ended in order, a window finds no length byte. *)
Lemma window_drained (metaint : Z) (c : cursor) :
  drained metaint c ->
  exists c', window metaint c = (Ret None, c') /\ drained metaint c'.
Proof.
  destruct c as [rem e log]. intros [He Hs]; cbn in He, Hs; subst e.
  assert (L : forall log', read Length 1 {| remaining := []; at_end := Eof; reads := log' |}
                = (Ret [], {| remaining := []; at_end := Eof;
                              reads := log' ++ [(Length, 1%Z)] |})).
  { intros log'. now rewrite read_past_end by (cbn; lia). }
  unfold window, bind.
  destruct (Z.ltb_spec metaint 0) as [Hn|Hn];
    [|destruct (Z.eqb_spec (Z.of_nat (length rem)) metaint) as [Heq|Hne]].
  - rewrite read_past_end by lia. rewrite L. cbn.
    eexists; split; [reflexivity|]. split; cbn; [reflexivity|lia].
  - pose proof (read_full Audio metaint rem [] Eof log) as R.
    rewrite app_nil_r in R. rewrite R by lia. rewrite L. cbn.
    eexists; split; [reflexivity|]. split; cbn; [reflexivity|lia].
  - rewrite read_past_end by lia. rewrite L. cbn.
    eexists; split; [reflexivity|]. split; cbn; [reflexivity|lia].
Qed.

Lemma scan_drained (k : nat) (metaint : Z) (c : cursor) :
  drained metaint c -> exists c', scan k metaint c = (Ret None, c').
Proof.
  revert c; induction k as [|k IH]; intros c Hd.
  - eexists; reflexivity.
  - rewrite scan_S. destruct (window_drained metaint c Hd) as (c' & -> & Hd').
    now apply IH.
Qed.

(** When the transport fails before the next length byte, the window
    raises. *)
Lemma window_fault (metaint : Z) (rem : bytes) (log : list (site * Z)) :
  (metaint < 0 \/ Z.of_nat (length rem) <= metaint)%Z ->
  fst (window metaint {| remaining := rem; at_end := Fault; reads := log |})
  = Raise.
Proof.
  intros Hs. unfold window, bind.
  destruct (Z.ltb_spec metaint 0) as [Hn|Hn];
    [|destruct (Z.eqb_spec (Z.of_nat (length rem)) metaint) as [Heq|Hne]].
  - now rewrite read_past_end by lia.
  - pose proof (read_full Audio metaint rem [] Fault log) as R.
    rewrite app_nil_r in R. rewrite R by lia.
    now rewrite read_past_end by (cbn; lia).
  - now rewrite read_past_end by lia.
Qed.

(** *** [fetch_metadata] by cases on the headers *)

Lemma fetch_metadata_declared (h : Headers) (metaint : Z) (body : bytes)
    (e : ending) :
  icy_metaint h = Some (IntOk metaint) ->
  fetch_metadata (GetOk h body e)
  = match fst (scan 10 metaint
                 {| remaining := body; at_end := e; reads := [] |}) with
    | Raise => None
    | Ret (Some t) => Some t
    | Ret None => fallback h
    end.
Proof.
  intros H. unfold fetch_metadata, fetch_metadata_trace, fetch_body.
  rewrite H. unfold bind at 1. unfold bind at 1. unfold lift at 1.
  destruct (scan 10 metaint _) as [[|[t|]] c']; reflexivity.
Qed.

Lemma fetch_metadata_undeclared (h : Headers) (body : bytes) (e : ending) :
  icy_metaint h = None -> fetch_metadata (GetOk h body e) = fallback h.
Proof.
  intros H. unfold fetch_metadata, fetch_metadata_trace, fetch_body.
  now rewrite H.
Qed.

Lemma fetch_metadata_bad_int (h : Headers) (body : bytes) (e : ending) :
  icy_metaint h = Some ValueError -> fetch_metadata (GetOk h body e) = None.
Proof.
  intros H. unfold fetch_metadata, fetch_metadata_trace, fetch_body.
  now rewrite H.
Qed.

(** ** The normalizer *)

Lemma split_title_found (title a b : text) :
  find (lit " - ") title = Some (a, b) ->
  split_title title = Ret {| artist := strip a; track := strip b |}.
Proof.
  intros F. unfold split_title, contains, split. rewrite F.
  change (Z.to_nat 1) with 1. cbn [Z.ltb Z.compare split_count]. now rewrite F.
Qed.

Lemma split_title_absent (title : text) :
  find (lit " - ") title = None ->
  split_title title
  = Ret {| artist := lit "Unknown Artist"; track := strip title |}.
Proof.
  intros F. unfold split_title, contains. now rewrite F.
Qed.

Lemma split_title_total (title : text) : exists t, split_title title = Ret t.
Proof.
  destruct (find (lit " - ") title) as [[a b]|] eqn:F.
  - rewrite (split_title_found _ _ _ F). eauto.
  - rewrite (split_title_absent _ F). eauto.
Qed.

Lemma split_unlimited_found (sep s a b : text) :
  find sep s = Some (a, b) -> sep <> [] ->
  split sep (-1) s = a :: split sep (-1) b.
Proof.
  intros F Hsep. unfold split. cbn [Z.ltb Z.compare].
  pose proof (find_shorter _ _ _ _ F) as L.
  assert (0 < length sep) by (destruct sep; [congruence|simpl; lia]).
  destruct (length s) as [|k] eqn:E; [lia|].
  cbn [split_count]. rewrite F. f_equal.
  apply split_count_enough; auto; lia.
Qed.

(** Behind the test of line 52, line 53 raises no [IndexError]. *)
Lemma extract_title_total (metadata : text) :
  contains (lit "StreamTitle=") metadata = true ->
  exists title, extract_title metadata = Ret title.
Proof.
  intros H. apply contains_true in H as (a & b & F).
  unfold extract_title.
  rewrite (split_unlimited_found _ _ _ _ F) by discriminate.
  destruct (split_count_nonempty (length b) (lit "StreamTitle=") b)
    as (x & r & E).
  unfold split at 1. cbn [Z.ltb Z.compare]. rewrite E.
  cbn [index nth_error obind].
  destruct (split_count_nonempty (length x) (lit ";") x) as (y & r' & E').
  unfold split. cbn [Z.ltb Z.compare]. rewrite E'.
  cbn [index nth_error obind]. eauto.
Qed.

(** The normalizer raises on no block. *)
Lemma normalize_total (metadata : text) :
  exists r, normalize metadata = Ret r.
Proof.
  unfold normalize. destruct (truthy metadata); [|eauto].
  destruct (contains _ _) eqn:C; [|eauto].
  destruct (extract_title_total _ C) as (title & ->). cbn [obind].
  destruct (split_title_total title) as (t & ->).
  cbn. eauto.
Qed.

Lemma normalize_absent (metadata : text) :
  contains (lit "StreamTitle=") metadata = false -> normalize metadata = Ret None.
Proof.
  intros H. unfold normalize. rewrite H. now destruct (truthy metadata).
Qed.

(** ** The reads of a call *)

Lemma reads_at_app (st : site) (l1 l2 : list (site * Z)) :
  reads_at st (l1 ++ l2) = reads_at st l1 + reads_at st l2.
Proof. unfold reads_at. now rewrite filter_app, length_app. Qed.

(** A window makes one audio read, then at most one length read, then at
    most one block read. *)
Lemma window_log (metaint : Z) (c : cursor) :
  exists l,
    reads (snd (window metaint c)) = reads c ++ l /\
    (forall st, reads_at st l <= 1) /\
    (forall r, fst (window metaint c) = Ret r ->
               reads_at Audio l = 1 /\ reads_at Length l = 1).
Proof.
  unfold window, bind.
  destruct (read Audio metaint c) as [o1 c1] eqn:R1.
  assert (L1 : reads c1 = reads c ++ [(Audio, metaint)])
    by (pose proof (read_log Audio metaint c) as L; now rewrite R1 in L).
  destruct o1 as [|?].
  { exists [(Audio, metaint)]. cbn [fst snd]. repeat split; auto; try discriminate.
    intros []; cbn; lia. }
  destruct (read Length 1 c1) as [o2 c2] eqn:R2.
  assert (L2 : reads c2 = reads c ++ [(Audio, metaint); (Length, 1%Z)]).
  { pose proof (read_log Length 1 c1) as L. rewrite R2 in L. cbn [snd] in L.
    now rewrite L, L1, <- app_assoc. }
  assert (F2 : forall st, reads_at st [(Audio, metaint); (Length, 1%Z)] <= 1)
    by (intros []; cbn; lia).
  destruct o2 as [|len].
  { eexists; repeat split; eauto; discriminate. }
  destruct (truthy len); [|eexists; repeat split; eauto].
  unfold lift at 1. destruct (ord len) as [|n];
    [eexists; repeat split; eauto; discriminate|].
  destruct (n * 16 >? 0)%Z; [|eexists; repeat split; eauto].
  destruct (read Block (n * 16) c2) as [o3 c3] eqn:R3.
  assert (L3 : reads c3 = reads c ++ [(Audio, metaint); (Length, 1%Z);
                                      (Block, (n * 16)%Z)]).
  { pose proof (read_log Block (n * 16) c2) as L. rewrite R3 in L.
    cbn [snd] in L. now rewrite L, L2, <- app_assoc. }
  assert (F3 : forall st, reads_at st [(Audio, metaint); (Length, 1%Z);
                                       (Block, (n * 16)%Z)] <= 1)
    by (intros []; cbn; lia).
  exists [(Audio, metaint); (Length, 1%Z); (Block, (n * 16)%Z)].
  destruct o3 as [|raw]; [repeat split; auto; discriminate|].
  destruct (truthy (decode_ignore raw)); [|repeat split; auto].
  destruct (contains _ _); [|repeat split; auto].
  unfold lift, ret.
  destruct (extract_title _); [repeat split; auto; discriminate|].
  destruct (split_title _); repeat split; auto; discriminate.
Qed.

(** [scan k] makes at most [k] reads at each site, and gives up only after
    [k] whole windows. *)
Lemma scan_log (k : nat) (metaint : Z) (c : cursor) :
  exists l,
    reads (snd (scan k metaint c)) = reads c ++ l /\
    (forall st, reads_at st l <= k) /\
    (fst (scan k metaint c) = Ret None ->
     reads_at Audio l = k /\ reads_at Length l = k).
Proof.
  revert c; induction k as [|k IH]; intros c.
  - exists []. cbn. rewrite app_nil_r. repeat split; auto.
  - rewrite scan_S.
    destruct (window_log metaint c) as (l1 & E1 & B1 & W1).
    destruct (window metaint c) as [[|[t|]] c1] eqn:W; cbn [fst snd] in *.
    + exists l1. repeat split; auto; try discriminate.
      intros st. specialize (B1 st). lia.
    + exists l1. repeat split; auto; try discriminate.
      intros st. specialize (B1 st). lia.
    + destruct (IH c1) as (l2 & E2 & B2 & W2).
      exists (l1 ++ l2). rewrite E2, E1, app_assoc. split; [reflexivity|].
      split.
      * intros st. rewrite reads_at_app. specialize (B1 st). specialize (B2 st). lia.
      * intros H. destruct (W2 H) as [A2 L2]. destruct (W1 _ eq_refl) as [A1 L1].
        rewrite !reads_at_app. lia.
Qed.

(** ** Where exceptions come from *)

Lemma read_at_end (st : site) (amt : Z) (c : cursor) :
  at_end (snd (read st amt c)) = at_end c.
Proof.
  unfold read. destruct (amt <? 0)%Z; [|destruct (_ <=? _)%nat];
    destruct (at_end c); reflexivity.
Qed.

Lemma read_raise (st : site) (amt : Z) (c : cursor) :
  fst (read st amt c) = Raise -> at_end c = Fault.
Proof.
  unfold read. destruct (amt <? 0)%Z; [|destruct (_ <=? _)%nat];
    destruct (at_end c); cbn; auto; discriminate.
Qed.

Lemma read_length (st : site) (amt : Z) (c : cursor) (bs : bytes) :
  (0 <= amt)%Z -> fst (read st amt c) = Ret bs -> length bs <= Z.to_nat amt.
Proof.
  intros H0. unfold read. rewrite (proj2 (Z.ltb_ge amt 0)) by lia.
  destruct (Nat.leb_spec (Z.to_nat amt) (length (remaining c))) as [L|L].
  - cbn. intros [= <-]. rewrite length_firstn. lia.
  - destruct (at_end c); cbn; [|discriminate]. intros [= <-]. lia.
Qed.

(** What one byte read gives is a byte: [ord] does not raise on it. *)
Lemma ord_of_read (c : cursor) (len : bytes) :
  fst (read Length 1 c) = Ret len -> truthy len = true ->
  exists b, len = [b].
Proof.
  intros R T. apply read_length in R; [|lia].
  destruct len as [|b [|? ?]]; cbn in *; try discriminate; try lia. eauto.
Qed.

(** A window raises only when the transport does: neither the decoding nor
    the normalizer raises. *)
Lemma window_raise (metaint : Z) (c : cursor) :
  fst (window metaint c) = Raise -> at_end c = Fault.
Proof.
  rewrite window_factor. unfold next_block, bind.
  destruct (read Audio metaint c) as [o1 c1] eqn:R1.
  pose proof (read_raise Audio metaint c) as F1.
  pose proof (read_at_end Audio metaint c) as E1.
  rewrite R1 in F1, E1. cbn [fst snd] in F1, E1.
  destruct o1 as [|?]; [auto|].
  destruct (read Length 1 c1) as [o2 c2] eqn:R2.
  pose proof (read_raise Length 1 c1) as F2.
  pose proof (read_at_end Length 1 c1) as E2.
  pose proof (ord_of_read c1) as O.
  rewrite R2 in F2, E2, O. cbn [fst snd] in F2, E2, O.
  destruct o2 as [|len]; [intros; rewrite <- E1; auto|].
  destruct (truthy len) eqn:T.
  2:{ unfold ret, lift. cbn. discriminate. }
  destruct (O len eq_refl T) as (b & ->).
  cbn [lift ord].
  destruct (_ >? 0)%Z.
  2:{ unfold ret, lift. cbn. discriminate. }
  destruct (read Block _ c2) as [o3 c3] eqn:R3.
  pose proof (read_raise Block (Z.of_N (Byte.to_N b) * 16) c2) as F3.
  rewrite R3 in F3. cbn [fst] in F3.
  destruct o3 as [|raw]; [intros; rewrite <- E1, <- E2; auto|].
  unfold ret, lift. cbn [fst].
  destruct (normalize_total (decode_ignore raw)) as (r & ->). discriminate.
Qed.

Lemma window_at_end (metaint : Z) (c : cursor) :
  at_end (snd (window metaint c)) = at_end c.
Proof.
  unfold window, bind.
  destruct (read Audio metaint c) as [o1 c1] eqn:R1.
  pose proof (read_at_end Audio metaint c) as E1. rewrite R1 in E1. cbn in E1.
  destruct o1 as [|?]; [auto|].
  destruct (read Length 1 c1) as [o2 c2] eqn:R2.
  pose proof (read_at_end Length 1 c1) as E2. rewrite R2 in E2. cbn in E2.
  destruct o2 as [|len]; [cbn; congruence|].
  destruct (truthy len); [|cbn; congruence].
  unfold lift at 1. destruct (ord len) as [|n]; [cbn; congruence|].
  destruct (_ >? 0)%Z; [|cbn; congruence].
  destruct (read Block _ c2) as [o3 c3] eqn:R3.
  pose proof (read_at_end Block (n * 16) c2) as E3. rewrite R3 in E3. cbn in E3.
  destruct o3 as [|raw]; [cbn; congruence|].
  destruct (truthy _); [|cbn; congruence].
  destruct (contains _ _); [|cbn; congruence].
  unfold lift, ret.
  destruct (extract_title _); [cbn; congruence|].
  destruct (split_title _); cbn; congruence.
Qed.

Lemma scan_raise (k : nat) (metaint : Z) (c : cursor) :
  fst (scan k metaint c) = Raise -> at_end c = Fault.
Proof.
  revert c; induction k as [|k IH]; intros c.
  - discriminate.
  - rewrite scan_S.
    pose proof (window_raise metaint c) as W.
    pose proof (window_at_end metaint c) as E.
    destruct (window metaint c) as [[|[t|]] c1]; cbn [fst snd] in *; auto.
    all: try (intros H; discriminate H).
    intros H. rewrite <- E. now apply IH.
Qed.

(** ** Equality of tracks *)

Lemma text_eqb_eq (a b : text) : text_eqb a b = true <-> a = b.
Proof.
  revert b; induction a as [|x a IH]; intros [|y b]; cbn; split;
    try discriminate; auto.
  - intros H. apply andb_prop in H as [H1 H2].
    apply N.eqb_eq in H1. apply IH in H2. now subst.
  - intros [= -> ->]. rewrite N.eqb_refl. now apply IH.
Qed.

Lemma TrackInfo_eqb_eq (a b : TrackInfo) : TrackInfo_eqb a b = true <-> a = b.
Proof.
  unfold TrackInfo_eqb. destruct a as [a1 a2], b as [b1 b2]; cbn. split.
  - intros H. apply andb_prop in H as [H1 H2].
    apply text_eqb_eq in H1, H2. now subst.
  - intros [= -> ->]. apply andb_true_intro. split; now apply text_eqb_eq.
Qed.

Lemma is_new_iff (current : TrackInfo) (last_track : option TrackInfo) :
  is_new (Some current) last_track = true <-> last_track <> Some current.
Proof.
  unfold is_new. destruct last_track as [l|].
  - rewrite negb_true_iff. split.
    + intros H [= ->]. 
      assert (T : TrackInfo_eqb current current = true) by now apply TrackInfo_eqb_eq.
      congruence.
    + intros H. destruct (TrackInfo_eqb current l) eqn:E; auto.
      apply TrackInfo_eqb_eq in E. congruence.
  - split; [discriminate|auto].
Qed.

(** ** The claims of the specification *)

(** A window that holds a title ends the scan. *)
Lemma scan_found (k : nat) (metaint : Z) (filler : bytes) (lb : byte)
    (mb rest : bytes) (e : ending) (log : list (site * Z)) (r : option TrackInfo) :
  (0 <= metaint)%Z -> length filler = Z.to_nat metaint ->
  (0 < Byte.to_N lb)%N -> length mb = 16 * N.to_nat (Byte.to_N lb) ->
  normalize (decode_ignore mb) = Ret r ->
  scan (S k) metaint
    {| remaining := filler ++ lb :: mb ++ rest; at_end := e; reads := log |}
  = match r with
    | Some t =>
        (Ret (Some t),
         {| remaining := rest; at_end := e;
            reads := log ++ [(Audio, metaint); (Length, 1%Z);
                             (Block, (Z.of_N (Byte.to_N lb) * 16)%Z)] |})
    | None =>
        scan k metaint
          {| remaining := rest; at_end := e;
             reads := log ++ [(Audio, metaint); (Length, 1%Z);
                              (Block, (Z.of_N (Byte.to_N lb) * 16)%Z)] |}
    end.
Proof.
  intros Hm Hf Hlb Hmb Hn. rewrite scan_S, window_factor. unfold bind.
  rewrite next_block_full by assumption. unfold lift. rewrite Hn.
  destruct r; reflexivity.
Qed.

(** C1. Decoder round trip: on a stream of [interval] filler bytes, a
    length byte [length_byte > 0] and the [16 * length_byte] bytes that encode
    a metadata text, the frame decoder yields that text unchanged and stops
    behind the block; when the text holds a [StreamTitle=] field,
    [fetch_metadata] returns the track the normalizer makes of it. *)
Theorem decoder_round_trip (h : Headers) (interval : Z) (filler : bytes)
    (length_byte : byte) (metadata_bytes rest : bytes) (metadata : text)
    (e : ending) (log : list (site * Z)) :
  (0 <= interval)%Z -> length filler = Z.to_nat interval ->
  (0 < Byte.to_N length_byte)%N ->
  length metadata_bytes = 16 * N.to_nat (Byte.to_N length_byte) ->
  scalar_text metadata -> metadata_bytes = utf8_encode metadata ->
  next_block interval
    {| remaining := filler ++ length_byte :: metadata_bytes ++ rest;
       at_end := e; reads := log |}
  = (Ret metadata,
     {| remaining := rest; at_end := e;
        reads := log ++ [(Audio, interval); (Length, 1%Z);
                         (Block, (Z.of_N (Byte.to_N length_byte) * 16)%Z)] |})
  /\ (icy_metaint h = Some (IntOk interval) ->
      contains (lit "StreamTitle=") metadata = true ->
      exists t,
        normalize metadata = Ret (Some t) /\
        fetch_metadata
          (GetOk h (filler ++ length_byte :: metadata_bytes ++ rest) e)
        = Some t).
Proof.
  intros Hi Hf Hlb Hmb Hs Henc.
  assert (D : decode_ignore metadata_bytes = metadata).
  { subst metadata_bytes. unfold decode_ignore.
    rewrite <- (app_nil_r (utf8_encode metadata)).
    rewrite utf8_decode_encode by assumption. cbn. apply app_nil_r. }
  split.
  - rewrite next_block_full by assumption. now rewrite D.
  - intros Hh Hc.
    assert (N : exists t, normalize metadata = Ret (Some t)).
    { destruct (normalize_total metadata) as (r & Hr).
      unfold normalize in *. rewrite Hc in *.
      destruct (truthy metadata) eqn:T.
      - destruct (extract_title metadata); [discriminate|]. cbn [obind] in *.
        destruct (split_title a); [discriminate|]. cbn. eauto.
      - destruct metadata; [discriminate|discriminate]. }
    destruct N as (t & Ht). exists t. split; [assumption|].
    rewrite (fetch_metadata_declared _ _ _ _ Hh).
    rewrite (scan_found 9 interval filler length_byte metadata_bytes rest e []
               (Some t)); auto.
    now rewrite D.
Qed.

Lemma decoder_round_trip_witness :
  let h := {| icy_metaint := Some (IntOk 4); icy_name := None |} in
  let metadata := lit "StreamTitle='Artist X - Song Y';" in
  next_block 4
    {| remaining := blit "abcd" ++ x02 :: utf8_encode metadata ++ blit "zz";
       at_end := Eof; reads := [] |}
  = (Ret metadata,
     {| remaining := blit "zz"; at_end := Eof;
        reads := [(Audio, 4%Z); (Length, 1%Z); (Block, 32%Z)] |})
  /\ exists t,
      normalize metadata = Ret (Some t) /\
      fetch_metadata
        (GetOk h (blit "abcd" ++ x02 :: utf8_encode metadata ++ blit "zz") Eof)
      = Some t.
Proof.
  intros h metadata.
  assert (Hs : scalar_text metadata) by (repeat constructor).
  destruct (decoder_round_trip h 4 (blit "abcd") x02 (utf8_encode metadata)
              (blit "zz") metadata Eof []
              ltac:(lia) eq_refl ltac:(cbn; lia) eq_refl Hs eq_refl)
    as [H1 H2].
  split; [exact H1|]. apply H2; reflexivity.
Defined.

(** C2, counterexample. The body ends in order inside the block (30 of the
    32 bytes asked for arrive): the truncated title is returned as a track.
    The body ends in order inside the audio skip: the station placeholder is
    returned. No error is reported in either case. *)
Lemma short_read_is_not_reported :
  fetch_metadata_trace
    (GetOk {| icy_metaint := Some (IntOk 0); icy_name := None |}
           (x02 :: blit "StreamTitle='Artist - Song Nam") Eof)
  = (Some {| artist := lit "Artist"; track := lit "Song Nam" |},
     [(Audio, 0%Z); (Length, 1%Z); (Block, 32%Z)])
  /\ length (blit "StreamTitle='Artist - Song Nam") = 30
  /\ fetch_metadata
       (GetOk {| icy_metaint := Some (IntOk 8); icy_name := Some (lit "Radio") |}
              (blit "abc") Eof)
     = Some {| artist := lit "Radio"; track := lit "Current Track" |}.
Proof. repeat split; vm_compute; reflexivity. Qed.

(** C2, as the code has it. A short read is not reported as such. With
    [k + 1] windows left to scan:
    - if the body ends in order during the audio skip or before the length
      byte, this window and the later ones find nothing, and the scan gives
      up;
    - if the body ends in order inside the block, the bytes that arrived
      are decoded and normalized as a block, and the scan gives up when they
      hold no title;
    - if the transport fails at either place, the scan raises.
    [fetch_metadata] then returns the track found, the result of the headers
    ([fallback]) when the scan gave up, and [None] when it raised. *)
Theorem short_read_outcomes (h : Headers) (k : nat) (metaint : Z)
    (rem : bytes) (log : list (site * Z)) :
  icy_metaint h = Some (IntOk metaint) ->
  ((metaint < 0 \/ Z.of_nat (length rem) <= metaint)%Z ->
     fst (scan (S k) metaint
            {| remaining := rem; at_end := Eof; reads := log |}) = Ret None /\
     fst (scan (S k) metaint
            {| remaining := rem; at_end := Fault; reads := log |}) = Raise /\
     fetch_metadata (GetOk h rem Eof) = fallback h /\
     fetch_metadata (GetOk h rem Fault) = None)
  /\ (forall filler lb partial,
        rem = filler ++ lb :: partial ->
        (0 <= metaint)%Z -> length filler = Z.to_nat metaint ->
        length partial < 16 * N.to_nat (Byte.to_N lb) ->
        exists r,
          normalize (decode_ignore partial) = Ret r /\
          fst (scan (S k) metaint
                 {| remaining := rem; at_end := Eof; reads := log |}) = Ret r /\
          fst (scan (S k) metaint
                 {| remaining := rem; at_end := Fault; reads := log |}) = Raise /\
          fetch_metadata (GetOk h rem Eof)
          = match r with Some t => Some t | None => fallback h end /\
          fetch_metadata (GetOk h rem Fault) = None).
Proof.
  intros Hh.
  assert (A : forall k log, (metaint < 0 \/ Z.of_nat (length rem) <= metaint)%Z ->
     fst (scan (S k) metaint
            {| remaining := rem; at_end := Eof; reads := log |}) = Ret None /\
     fst (scan (S k) metaint
            {| remaining := rem; at_end := Fault; reads := log |}) = Raise).
  { intros k0 log0 Hs. split.
    - destruct (scan_drained (S k0) metaint
                  {| remaining := rem; at_end := Eof; reads := log0 |})
        as (c' & ->); [split; auto|reflexivity].
    - rewrite scan_S.
      pose proof (window_fault metaint rem log0 Hs) as W.
      destruct (window metaint _) as [[|[t|]] c1]; cbn in W; try discriminate W.
      reflexivity. }
  assert (B : forall k log filler lb partial,
        rem = filler ++ lb :: partial ->
        (0 <= metaint)%Z -> length filler = Z.to_nat metaint ->
        length partial < 16 * N.to_nat (Byte.to_N lb) ->
        exists r,
          normalize (decode_ignore partial) = Ret r /\
          fst (scan (S k) metaint
                 {| remaining := rem; at_end := Eof; reads := log |}) = Ret r /\
          fst (scan (S k) metaint
                 {| remaining := rem; at_end := Fault; reads := log |}) = Raise).
  { intros k0 log0 filler lb partial -> Hm Hf Hp.
    destruct (normalize_total (decode_ignore partial)) as (r & Hr).
    exists r. split; [assumption|]. split.
    - rewrite scan_S, window_factor. unfold bind.
      rewrite next_block_short by assumption. unfold lift. rewrite Hr.
      destruct r as [t|]; [reflexivity|].
      destruct (scan_drained k0 metaint
                  {| remaining := []; at_end := Eof;
                     reads := log0 ++ [(Audio, metaint); (Length, 1%Z);
                                       (Block, (Z.of_N (Byte.to_N lb) * 16)%Z)] |})
        as (c' & ->); [split; cbn; auto; lia|reflexivity].
    - rewrite scan_S, window_factor. unfold bind.
      now rewrite next_block_short by assumption. }
  split.
  - intros Hs. destruct (A k log Hs) as [A1 A2]. repeat split; auto.
    + rewrite (fetch_metadata_declared _ _ _ _ Hh).
      now destruct (A 9 [] Hs) as [-> _].
    + rewrite (fetch_metadata_declared _ _ _ _ Hh).
      now destruct (A 9 [] Hs) as [_ ->].
  - intros filler lb partial Hrem Hm Hf Hp.
    destruct (B k log filler lb partial Hrem Hm Hf Hp) as (r & Hr & B1 & B2).
    exists r. repeat split; auto.
    + rewrite (fetch_metadata_declared _ _ _ _ Hh).
      destruct (B 9 [] filler lb partial Hrem Hm Hf Hp) as (r' & Hr' & -> & _).
      rewrite Hr in Hr'. injection Hr' as <-. now destruct r.
    + rewrite (fetch_metadata_declared _ _ _ _ Hh).
      now destruct (B 9 [] filler lb partial Hrem Hm Hf Hp) as (r' & _ & _ & ->).
Qed.

Lemma short_read_outcomes_witness :
  fetch_metadata
    (GetOk {| icy_metaint := Some (IntOk 8); icy_name := Some (lit "Radio") |}
           (blit "abc") Eof)
  = Some {| artist := lit "Radio"; track := lit "Current Track" |}
  /\ fetch_metadata
       (GetOk {| icy_metaint := Some (IntOk 8); icy_name := Some (lit "Radio") |}
              (blit "abc") Fault)
     = None
  /\ exists r,
      normalize (decode_ignore (blit "StreamTitle='Artist - Song Nam")) = Ret r /\
      fetch_metadata
        (GetOk {| icy_metaint := Some (IntOk 0); icy_name := None |}
               (x02 :: blit "StreamTitle='Artist - Song Nam") Eof)
      = match r with Some t => Some t | None => None end.
Proof.
  destruct (short_read_outcomes
              {| icy_metaint := Some (IntOk 8); icy_name := Some (lit "Radio") |}
              9 8 (blit "abc") [] eq_refl) as [H1 _].
  destruct (H1 ltac:(right; cbn; lia)) as (_ & _ & F1 & F2).
  destruct (short_read_outcomes
              {| icy_metaint := Some (IntOk 0); icy_name := None |}
              9 0 (x02 :: blit "StreamTitle='Artist - Song Nam") [] eq_refl)
    as [_ H2].
  destruct (H2 [] x02 (blit "StreamTitle='Artist - Song Nam")
              eq_refl ltac:(lia) eq_refl ltac:(cbn; lia))
    as (r & Hr & _ & _ & F3 & _).
  split; [exact F1|]. split; [exact F2|]. exists r. split; [exact Hr|exact F3].
Defined.

(** C3. Title-splitting rule: when the title holds [" - "], the artist is
    what precedes its first occurrence and the track what follows it, each
    without the white space around it; when it does not, the track is the
    title without the white space around it and the artist is
    ["Unknown Artist"]. *)
Theorem title_split_rule (title : text) :
  (forall a b,
      first_at (lit " - ") title a b ->
      exists ar tr,
        split_title title = Ret {| artist := ar; track := tr |} /\
        trimmed isspace a ar /\ trimmed isspace b tr)
  /\ ((forall a b, title <> a ++ lit " - " ++ b) ->
      exists tr,
        split_title title
        = Ret {| artist := lit "Unknown Artist"; track := tr |} /\
        trimmed isspace title tr).
Proof.
  split.
  - intros a b H. apply first_at_find in H.
    exists (strip a), (strip b). split; [now apply split_title_found|].
    split; apply strip_by_trimmed.
  - intros H. exists (strip title). split; [|apply strip_by_trimmed].
    apply split_title_absent.
    destruct (find (lit " - ") title) as [[a b]|] eqn:F; [|reflexivity].
    apply find_first in F as [F _]. now apply H in F.
Qed.

Lemma title_split_rule_witness :
  (exists ar tr,
      split_title (lit "Artist X - Song Y - Live")
      = Ret {| artist := ar; track := tr |} /\
      trimmed isspace (lit "Artist X") ar /\
      trimmed isspace (lit "Song Y - Live") tr)
  /\ (exists tr,
         split_title (lit " Just A Title ")
         = Ret {| artist := lit "Unknown Artist"; track := tr |} /\
         trimmed isspace (lit " Just A Title ") tr).
Proof.
  split.
  - apply (proj1 (title_split_rule (lit "Artist X - Song Y - Live"))).
    apply find_first. reflexivity.
  - apply (proj2 (title_split_rule (lit " Just A Title "))).
    apply find_absent. reflexivity.
Defined.

Example ex_normalize_artist_track :
  normalize (lit "StreamTitle='Artist X - Song Y';")
  = Ret (Some {| artist := lit "Artist X"; track := lit "Song Y" |}).
Proof. reflexivity. Qed.

Example ex_normalize_no_separator :
  normalize (lit "StreamTitle='Just A Title';")
  = Ret (Some {| artist := lit "Unknown Artist"; track := lit "Just A Title" |}).
Proof. reflexivity. Qed.

(** ** The polling loop *)

Lemma submit_success (current : TrackInfo) (net : post_outcome) :
  submit_to_listenbrainz (Some current) net = true <-> net = PostStatus 200.
Proof.
  destruct net as [| | |code]; cbn; split; try discriminate.
  - destruct (Z.eqb_spec code 200); cbn; [congruence|discriminate].
  - now intros [= ->].
Qed.

(** C4. [last_track] is transactional with respect to submission: in a
    cycle that detects a new track, the track is submitted, and
    [last_track] becomes that track if and only if the submission succeeds
    (the service answers with status 200); when it fails, [last_track] is
    unchanged, and the same track fetched at the next cycle is reported
    again. *)
Theorem last_track_transactional (last_track : option TrackInfo)
    (current : TrackInfo) (net : post_outcome) :
  is_new (Some current) last_track = true ->
  snd (observe last_track (Some current) net) = Report
  /\ (fst (observe last_track (Some current) net) = Some current
      <-> submit_to_listenbrainz (Some current) net = true)
  /\ (submit_to_listenbrainz (Some current) net = false ->
      fst (observe last_track (Some current) net) = last_track
      /\ forall net',
          snd (run_on last_track [(Some current, net); (Some current, net')])
          = [Report; Report]).
Proof.
  intros Hnew. pose proof (proj1 (is_new_iff _ _) Hnew) as Hne.
  unfold run_on, observe. rewrite Hnew.
  destruct (submit_to_listenbrainz (Some current) net) eqn:S; cbn [fst snd].
  - split; [reflexivity|]. split; [tauto|]. discriminate.
  - split; [reflexivity|]. split; [split; [congruence|discriminate]|].
    intros _. split; [reflexivity|]. intros net'. rewrite Hnew.
    now destruct (submit_to_listenbrainz (Some current) net').
Qed.

Lemma last_track_transactional_witness :
  let t := {| artist := lit "Artist X"; track := lit "Song Y" |} in
  snd (observe None (Some t) PostTimeout) = Report
  /\ (fst (observe None (Some t) PostTimeout) = Some t
      <-> submit_to_listenbrainz (Some t) PostTimeout = true)
  /\ fst (observe None (Some t) PostTimeout) = None
  /\ snd (run_on None [(Some t, PostTimeout); (Some t, PostStatus 200)])
     = [Report; Report].
Proof.
  intros t.
  destruct (last_track_transactional None t PostTimeout eq_refl)
    as (H1 & H2 & H3).
  destruct (H3 eq_refl) as [H4 H5].
  repeat split; try apply H2; auto.
Defined.

(** C5. The change detector reports if and only if no track is stored or
    the stored track differs from the current one in its artist or in its
    track; the same track observed twice, submitted with success the first
    time, is reported and then skipped. *)
Theorem report_iff_changed (last_track : option TrackInfo)
    (current : TrackInfo) (net : post_outcome) :
  (snd (observe last_track (Some current) net) = Report
   <-> last_track = None \/
       exists l, last_track = Some l /\
                 (artist l <> artist current \/ track l <> track current))
  /\ (last_track <> Some current ->
      submit_to_listenbrainz (Some current) net = true ->
      forall net',
        run_on last_track [(Some current, net); (Some current, net')]
        = (Some current, [Report; Skip])).
Proof.
  assert (E : is_new (Some current) last_track = true
              <-> last_track = None \/
                  exists l, last_track = Some l /\
                    (artist l <> artist current \/ track l <> track current)).
  { rewrite is_new_iff. destruct last_track as [l|].
    - split.
      + intros H. right. exists l. split; [reflexivity|].
        destruct l as [la lt], current as [ca ct]; cbn.
        destruct (list_eq_dec N.eq_dec la ca) as [->|]; auto.
        destruct (list_eq_dec N.eq_dec lt ct) as [->|]; auto.
      + intros [H|(l' & [= <-] & H)] [= ->]; [discriminate|tauto].
    - split; [auto|intros _; discriminate]. }
  split.
  - rewrite <- E. unfold observe.
    destruct (is_new (Some current) last_track).
    + destruct (submit_to_listenbrainz _ _); cbn; tauto.
    + cbn. split; discriminate.
  - intros Hne Hs net'. apply is_new_iff in Hne.
    unfold run_on, observe. rewrite Hne, Hs.
    assert (N : is_new (Some current) (Some current) = false).
    { destruct (is_new (Some current) (Some current)) eqn:N; auto.
      apply is_new_iff in N. congruence. }
    now rewrite N.
Qed.

Lemma report_iff_changed_witness :
  let t := {| artist := lit "Artist X"; track := lit "Song Y" |} in
  run_on None [(Some t, PostStatus 200); (Some t, PostStatus 200)]
  = (Some t, [Report; Skip]).
Proof.
  intros t.
  apply (proj2 (report_iff_changed None t (PostStatus 200)));
    [discriminate|reflexivity].
Defined.

(** ** Blocks without a title *)

(** C6. A non-empty block without the key [StreamTitle=] gives no track
    and raises nothing: the normalizer returns [None] on it, the scan goes on
    with the next window, and [fetch_metadata] returns [None] when this was
    the last block of the body and no [icy-name] header is present. *)
Theorem block_without_title (metadata : text) :
  metadata <> [] -> contains (lit "StreamTitle=") metadata = false ->
  normalize metadata = Ret None
  /\ (forall k metaint filler lb mb rest e log,
         (0 <= metaint)%Z -> length filler = Z.to_nat metaint ->
         (0 < Byte.to_N lb)%N -> length mb = 16 * N.to_nat (Byte.to_N lb) ->
         decode_ignore mb = metadata ->
         scan (S k) metaint
           {| remaining := filler ++ lb :: mb ++ rest; at_end := e;
              reads := log |}
         = scan k metaint
             {| remaining := rest; at_end := e;
                reads := log ++ [(Audio, metaint); (Length, 1%Z);
                                 (Block, (Z.of_N (Byte.to_N lb) * 16)%Z)] |})
  /\ (forall metaint filler lb mb,
         (0 <= metaint)%Z -> length filler = Z.to_nat metaint ->
         (0 < Byte.to_N lb)%N -> length mb = 16 * N.to_nat (Byte.to_N lb) ->
         decode_ignore mb = metadata ->
         fetch_metadata
           (GetOk {| icy_metaint := Some (IntOk metaint); icy_name := None |}
                  (filler ++ lb :: mb) Eof)
         = None).
Proof.
  intros Hne Hc.
  assert (N : normalize metadata = Ret None) by now apply normalize_absent.
  split; [exact N|]. split.
  - intros k metaint filler lb mb rest e log Hm Hf Hlb Hmb Hd.
    rewrite (scan_found k metaint filler lb mb rest e log None); auto.
    now rewrite Hd.
  - intros metaint filler lb mb Hm Hf Hlb Hmb Hd.
    rewrite (fetch_metadata_declared _ metaint) by reflexivity.
    rewrite <- (app_nil_r mb).
    rewrite (scan_found 9 metaint filler lb mb [] Eof [] None); auto.
    + destruct (scan_drained 9 metaint
                  {| remaining := []; at_end := Eof;
                     reads := [] ++ [(Audio, metaint); (Length, 1%Z);
                                     (Block, (Z.of_N (Byte.to_N lb) * 16)%Z)] |})
        as (c' & ->); [split; cbn; auto; lia|reflexivity].
    + now rewrite Hd.
Qed.

Lemma block_without_title_witness :
  normalize (lit "StreamUrl='http://example.org/';") = Ret None
  /\ fetch_metadata
       (GetOk {| icy_metaint := Some (IntOk 4); icy_name := None |}
              (blit "abcd" ++ x02 :: blit "StreamUrl='http://example.org/';")
              Eof)
     = None.
Proof.
  destruct (block_without_title (lit "StreamUrl='http://example.org/';")
              ltac:(discriminate) eq_refl) as (H1 & _ & H3).
  split; [exact H1|].
  apply (H3 4%Z (blit "abcd") x02 (blit "StreamUrl='http://example.org/';"));
    [lia|reflexivity|cbn; lia|reflexivity|reflexivity].
Defined.

(** ** The fallback *)

(** C7, counterexample. A session that declares an interval and names its
    station, and whose windows hold no title, yields the fallback. *)
Lemma fallback_with_declared_interval :
  fetch_metadata
    (GetOk {| icy_metaint := Some (IntOk 4); icy_name := Some (lit "Radio X") |}
           (blit "abcd" ++ x00 :: blit "efgh" ++ x01 :: blit "StreamUrl='';" ++ [x00; x00; x00])
           Eof)
  = Some {| artist := lit "Radio X"; track := lit "Current Track" |}.
Proof. vm_compute. reflexivity. Qed.

(** C7, as the code has it. A track returned by [fetch_metadata] is either
    one that the scan of a declared interval found, or the fallback: the
    station name of the [icy-name] header with the track ["Current Track"],
    returned when no interval is declared, or when the scan of the declared
    interval gave up after ten windows without a title. *)
Theorem fallback_provenance (h : Headers) (body : bytes) (e : ending)
    (t : TrackInfo) :
  fetch_metadata (GetOk h body e) = Some t ->
  (exists metaint,
      icy_metaint h = Some (IntOk metaint) /\
      fst (scan 10 metaint {| remaining := body; at_end := e; reads := [] |})
      = Ret (Some t))
  \/ (exists name,
         icy_name h = Some name /\
         t = {| artist := name; track := lit "Current Track" |} /\
         (icy_metaint h = None \/
          exists metaint,
            icy_metaint h = Some (IntOk metaint) /\
            fst (scan 10 metaint
                   {| remaining := body; at_end := e; reads := [] |})
            = Ret None /\
            reads_at Audio (snd (fetch_metadata_trace (GetOk h body e))) = 10 /\
            reads_at Length (snd (fetch_metadata_trace (GetOk h body e))) = 10)).
Proof.
  intros H.
  assert (FB : forall P : Prop, fallback h = Some t -> P ->
             exists name, icy_name h = Some name /\
                          t = {| artist := name; track := lit "Current Track" |} /\ P).
  { intros P F HP. unfold fallback in F.
    destruct (icy_name h) as [name|]; [|discriminate].
    injection F as <-. eauto. }
  destruct (icy_metaint h) as [[|metaint]|] eqn:Hh.
  - now rewrite fetch_metadata_bad_int in H.
  - rewrite (fetch_metadata_declared _ _ _ _ Hh) in H.
    destruct (scan_log 10 metaint
                {| remaining := body; at_end := e; reads := [] |})
      as (l & El & _ & Hl).
    assert (T : snd (fetch_metadata_trace (GetOk h body e)) = l).
    { unfold fetch_metadata_trace, fetch_body. rewrite Hh.
      unfold bind at 1. unfold bind at 1. unfold lift at 1.
      destruct (scan 10 metaint _) as [[|[t'|]] c']; cbn in El |- *; exact El. }
    destruct (fst (scan 10 metaint _)) as [|[t'|]] eqn:S; [discriminate| |].
    + injection H as ->. left. eauto.
    + right. apply FB; [assumption|]. right. exists metaint.
      destruct (Hl eq_refl) as [A L]. rewrite T. auto.
  - rewrite fetch_metadata_undeclared in H by assumption.
    right. apply FB; auto.
Qed.

Lemma fallback_provenance_witness :
  let h := {| icy_metaint := Some (IntOk 4); icy_name := Some (lit "Radio X") |} in
  let body := blit "abcd" ++ x00 :: blit "efgh" ++ x01 :: blit "StreamUrl='';" ++ [x00; x00; x00] in
  let t := {| artist := lit "Radio X"; track := lit "Current Track" |} in
  (exists metaint,
      icy_metaint h = Some (IntOk metaint) /\
      fst (scan 10 metaint {| remaining := body; at_end := Eof; reads := [] |})
      = Ret (Some t))
  \/ (exists name,
         icy_name h = Some name /\
         t = {| artist := name; track := lit "Current Track" |} /\
         (icy_metaint h = None \/
          exists metaint,
            icy_metaint h = Some (IntOk metaint) /\
            fst (scan 10 metaint
                   {| remaining := body; at_end := Eof; reads := [] |})
            = Ret None /\
            reads_at Audio (snd (fetch_metadata_trace (GetOk h body Eof))) = 10 /\
            reads_at Length (snd (fetch_metadata_trace (GetOk h body Eof))) = 10)).
Proof.
  intros h body t. apply (fallback_provenance h body Eof t).
  vm_compute. reflexivity.
Defined.

(** ** Decoding *)

Lemma utf8_decode_encode_whole (e : text) (t : text) :
  scalar_text t -> utf8_decode e (utf8_encode t) = t.
Proof.
  intros H. rewrite <- (app_nil_r (utf8_encode t)).
  rewrite utf8_decode_encode by assumption. apply app_nil_r.
Qed.

Lemma utf8_encode_char_head (c : N) :
  is_scalar c = true ->
  exists f r, utf8_encode_char c = f :: r /\
              (Byte.to_N f < 128 \/ 194 <= Byte.to_N f)%N.
Proof.
  intros Hs. apply is_scalar_inv in Hs. unfold utf8_encode_char.
  destruct (base64_digits c)
    as (r0 & r1 & r2 & q3 & E0 & E1 & E2 & E3 & E4 & E5 & Ec & B0 & B1 & B2).
  destruct (N.ltb_spec c 128);
    [|destruct (N.ltb_spec c 2048); [|destruct (N.ltb_spec c 65536)]];
    rewrite ?E0, ?E1, ?E2, ?E3, ?E4, ?E5;
    eexists; eexists; (split; [reflexivity|]);
    rewrite octet_to_N by lia; lia.
Qed.

(** A byte above 127 that stands between two well-formed texts, where no
    sequence can hold it, is an error of its own. *)
Lemma utf8_decode_stray (e : text) (b : byte) (t : text) :
  (128 <= Byte.to_N b)%N -> scalar_text t ->
  utf8_decode e (b :: utf8_encode t) = e ++ t.
Proof.
  intros Hb Ht.
  rewrite <- (utf8_decode_encode_whole e t Ht) at 2.
  destruct Ht as [|c t Hc Ht].
  - cbn [utf8_encode flat_map]. rewrite utf8_decode_cons.
    cbv beta iota zeta delta [utf8_step].
    repeat (decide_cond; cbn [negb orb andb]); cbn [utf8_decode];
      now rewrite ?app_nil_r.
  - cbn [utf8_encode flat_map].
    destruct (utf8_encode_char_head c Hc) as (f & r & -> & Hf).
    cbn [app]. set (tail := r ++ flat_map utf8_encode_char t).
    rewrite (utf8_decode_cons e b).
    cbv beta iota zeta delta [utf8_step is_continuation].
    destruct Hf; repeat (decide_cond; cbn [negb orb andb]); reflexivity.
Qed.

Ltac both_split :=
  match goal with
  | |- without_marks (if ?X then _ else _) _ =>
      match X with
      | context [(?a <? ?b)%N] => destruct (N.ltb_spec a b)
      | context [(?a <=? ?b)%N] => destruct (N.leb_spec a b)
      | context [(?a =? ?b)%N] => destruct (N.eqb_spec a b)
      end
  | |- without_marks (match ?l with [] => _ | _ :: _ => _ end) _ => destruct l
  end; cbn [negb orb andb app].

(** The ignoring decoder gives what the replacing decoder gives, less the
    replacement characters that stand for the errors. *)
Lemma decode_ignore_without_marks (bs : bytes) :
  without_marks (decode_ignore bs) (decode_replace bs).
Proof.
  unfold decode_ignore, decode_replace.
  assert (G : forall n bs, length bs <= n ->
                without_marks (utf8_decode [] bs) (utf8_decode [65533%N] bs)).
  { clear bs. induction n as [|n IH]; intros [|c0 r1] Hn; simpl in Hn;
      try (constructor; fail); try lia.
    rewrite !utf8_decode_cons.
    cbv beta iota zeta delta [utf8_step is_continuation]. cbn [app].
    repeat both_split;
      repeat match goal with
        | |- without_marks (_ :: _) (_ :: _) => apply wm_keep
        | |- without_marks _ (65533%N :: _) => apply wm_drop
        | |- without_marks [] [] => apply wm_nil
        | |- without_marks (utf8_decode _ _) (utf8_decode _ _) =>
            apply IH; simpl in *; lia
        end. }
  apply (G (length bs)). lia.
Qed.

(** C9, counterexample. The byte FF between [A] and [B] is dropped, not
    replaced: the text is ["AB"], where the replacing decoder gives
    [A], U+FFFD, [B]. *)
Lemma invalid_byte_is_not_replaced :
  decode_ignore [x41; xff; x42] = lit "AB"
  /\ decode_replace [x41; xff; x42] = [65; 65533; 66]%N
  /\ decode_ignore [x41; xff; x42] <> decode_replace [x41; xff; x42].
Proof. repeat split; try reflexivity. discriminate. Qed.

(** ** The bound of the scan *)

Lemma length_by_site (l : list (site * Z)) :
  length l = reads_at Audio l + reads_at Length l + reads_at Block l.
Proof.
  unfold reads_at. induction l as [|[[] z] l IH]; cbn; lia.
Qed.

(** C10. A call of [fetch_metadata] on a session that declares an interval
    reads at most ten windows: at most ten audio skips, ten length bytes and
    ten blocks. It returns the track of a window, or [None] when a read
    raises, or, after ten windows without a title, what the headers give
    ([fallback]). *)
Theorem scan_is_bounded (h : Headers) (metaint : Z) (body : bytes)
    (e : ending) :
  icy_metaint h = Some (IntOk metaint) ->
  let result := fst (fetch_metadata_trace (GetOk h body e)) in
  let log := snd (fetch_metadata_trace (GetOk h body e)) in
  reads_at Audio log <= 10 /\ reads_at Length log <= 10 /\
  reads_at Block log <= 10 /\ length log <= 30
  /\ ((exists t, result = Some t /\
                 fst (scan 10 metaint
                        {| remaining := body; at_end := e; reads := [] |})
                 = Ret (Some t))
      \/ (result = None /\ e = Fault)
      \/ (result = fallback h /\
          reads_at Audio log = 10 /\ reads_at Length log = 10)).
Proof.
  intros Hh result log.
  pose proof (fetch_metadata_declared h metaint body e Hh) as F.
  unfold fetch_metadata in F. fold result in F.
  destruct (scan_log 10 metaint
              {| remaining := body; at_end := e; reads := [] |})
    as (l & El & Bl & Hl).
  pose proof (scan_raise 10 metaint
                {| remaining := body; at_end := e; reads := [] |}) as R.
  assert (T : log = l).
  { unfold log, fetch_metadata_trace, fetch_body. rewrite Hh.
    unfold bind at 1. unfold bind at 1. unfold lift at 1.
    destruct (scan 10 metaint _) as [[|[t'|]] c']; cbn in El |- *; exact El. }
  rewrite T.
  assert (Len : length l <= 30).
  { rewrite (length_by_site l). pose proof (Bl Audio). pose proof (Bl Length).
    pose proof (Bl Block). lia. }
  repeat split; auto.
  destruct (fst (scan 10 metaint _)) as [|[t|]] eqn:S.
  - right; left. split; [assumption|]. now apply R.
  - left. eauto.
  - right; right. split; [assumption|]. now apply Hl.
Qed.

Lemma scan_is_bounded_witness :
  let h := {| icy_metaint := Some (IntOk 0); icy_name := Some (lit "Radio X") |} in
  let log := snd (fetch_metadata_trace (GetOk h (repeat x00 12) Eof)) in
  reads_at Audio log <= 10 /\ reads_at Length log <= 10 /\
  reads_at Block log <= 10 /\ length log <= 30.
Proof.
  intros h log.
  destruct (scan_is_bounded h 0 (repeat x00 12) Eof eq_refl)
    as (A & L & B & T & _).
  repeat split; assumption.
Defined.

Example ex_scan_ten_windows :
  fetch_metadata_trace
    (GetOk {| icy_metaint := Some (IntOk 0); icy_name := Some (lit "Radio X") |}
           (repeat x00 12) Eof)
  = (Some {| artist := lit "Radio X"; track := lit "Current Track" |},
     concat (repeat [(Audio, 0%Z); (Length, 1%Z)] 10)).
Proof. vm_compute. reflexivity. Qed.

(** ** Further properties of the code *)

(** *** The [in] operator and [split] *)

(** X1. [sub in s] holds exactly when [s] is some text, [sub], some text. *)
Theorem contains_iff_substring (sub s : text) :
  contains sub s = true <-> exists a b, s = a ++ sub ++ b.
Proof.
  split.
  - intros H. apply contains_true in H as (a & b & F).
    apply find_first in F as [F _]. eauto.
  - intros (a & b & E). unfold contains.
    destruct (find sub s) as [[x y]|] eqn:F; [reflexivity|].
    now apply (find_absent _ _ F) in E.
Qed.

Lemma contains_occurrence (sub a b : text) :
  contains sub (a ++ sub ++ b) = true.
Proof.
  unfold contains.
  destruct (find sub (a ++ sub ++ b)) as [[x y]|] eqn:F; [reflexivity|].
  now destruct (find_absent _ _ F a b).
Qed.

Lemma contains_elim (sub s : text) :
  contains sub s = true -> exists a b, s = a ++ sub ++ b.
Proof.
  intros H. apply contains_true in H as (a & b & F).
  apply find_first in F as [F _]. eauto.
Qed.

Lemma join_cons (sep p : text) (rest : list text) :
  rest <> [] -> join sep (p :: rest) = p ++ sep ++ join sep rest.
Proof. destruct rest; [congruence|reflexivity]. Qed.

(** X2. Joining the pieces of a split by a non-empty separator with the
    separator gives the text back, whatever the limit on the cuts. *)
Theorem join_split (sep : text) (maxsplit : Z) (s : text) :
  sep <> [] -> join sep (split sep maxsplit s) = s.
Proof.
  intros _. unfold split.
  generalize (if (maxsplit <? 0)%Z then length s else Z.to_nat maxsplit).
  intros k. revert s; induction k as [|k IH]; intros s; cbn [split_count].
  - reflexivity.
  - destruct (find sep s) as [[a b]|] eqn:F; [|reflexivity].
    destruct (split_count_nonempty k sep b) as (x & r & E).
    rewrite join_cons by (rewrite E; discriminate).
    rewrite IH. apply find_first in F as [F _]. now rewrite F.
Qed.

Lemma join_split_witness :
  join (lit " - ") (split (lit " - ") 1 (lit "Artist X - Song Y - Live"))
  = lit "Artist X - Song Y - Live".
Proof. apply join_split. discriminate. Defined.

(** X3. No piece of an unlimited split holds the separator. *)
Theorem split_pieces_free (sep s : text) :
  sep <> [] ->
  Forall (fun p => contains sep p = false) (split sep (-1) s).
Proof.
  intros Hsep. unfold split. cbn [Z.ltb Z.compare].
  assert (G : forall k s, length s <= k ->
              Forall (fun p => contains sep p = false) (split_count k sep s)).
  { clear s. induction k as [|k IH]; intros s Hk.
    - destruct s; [|simpl in Hk; lia]. constructor; [|constructor].
      destruct sep; [congruence|reflexivity].
    - cbn [split_count]. destruct (find sep s) as [[a b]|] eqn:F.
      + pose proof (find_shorter _ _ _ _ F) as L.
        assert (0 < length sep) by (destruct sep; [congruence|simpl; lia]).
        constructor; [|apply IH; lia].
        destruct (contains sep a) eqn:C; [|reflexivity].
        apply contains_elim in C as (x & y & ->).
        apply find_first in F as [E M].
        rewrite <- !app_assoc in E. specialize (M x _ E).
        rewrite !length_app in M. lia.
      + constructor; [|constructor]. unfold contains. now rewrite F. }
  apply G. lia.
Qed.

Lemma split_pieces_free_witness :
  Forall (fun p => contains (lit ";") p = false)
         (split (lit ";") (-1) (lit "a;b;;c")).
Proof. apply split_pieces_free. discriminate. Defined.

(** *** The title field *)

Lemma startswith_app_split (p a : text) (c : N) (b : text) :
  startswith p (a ++ c :: b) = true -> startswith p a = true \/ In c p.
Proof.
  revert a; induction p as [|x p IH]; intros a H.
  - now left.
  - destruct a as [|y a]; cbn in H.
    + apply andb_prop in H as [H _]. apply N.eqb_eq in H. subst. right. now left.
    + apply andb_prop in H as [H1 H2].
      destruct (IH _ H2) as [H|H].
      * left. cbn. now rewrite H1, H.
      * right. now right.
Qed.

(** A separator that does not occur in [v] and does not hold [c] is found
    in [v ++ c :: w] where it is found in [w]. *)
Lemma find_skip (sep v : text) (c : N) (w : text) :
  find sep v = None -> ~ In c sep ->
  find sep (v ++ c :: w)
  = match find sep w with
    | Some (x, y) => Some (v ++ c :: x, y)
    | None => None
    end.
Proof.
  intros Hv Hc. induction v as [|y v IH].
  - cbn [app]. cbn in Hv. destruct sep as [|x sep]; [discriminate|].
    cbn [find]. replace (startswith (x :: sep) (c :: w)) with false.
    + destruct (find (x :: sep) w) as [[a b]|]; reflexivity.
    + cbn. destruct (N.eqb_spec x c); [|reflexivity].
      subst. exfalso. apply Hc. now left.
  - cbn [find] in Hv. destruct (startswith sep (y :: v)) eqn:S; [discriminate|].
    destruct (find sep v) as [[a b]|] eqn:F; [discriminate|].
    cbn [app find].
    destruct (startswith sep (y :: v ++ c :: w)) eqn:S'.
    + apply (startswith_app_split sep (y :: v)) in S' as [S'|S'];
        [congruence|contradiction].
    + rewrite (IH eq_refl). destruct (find sep w) as [[a b]|]; reflexivity.
Qed.

Lemma find_char_first (c : N) (v z : text) :
  ~ In c v -> find [c] (v ++ c :: z) = Some (v, z).
Proof.
  intros H. induction v as [|y v IH]; cbn [app find startswith].
  - now rewrite N.eqb_refl.
  - destruct (N.eqb_spec c y) as [->|Hn]; [exfalso; apply H; now left|].
    cbn [andb]. rewrite IH; [reflexivity|]. intros Hin. apply H. now right.
Qed.

Lemma index_split_0 (sep s : text) :
  index (split sep (-1) s) 0 = Ret (upto sep s).
Proof.
  unfold split, upto. cbn [Z.ltb Z.compare].
  destruct s as [|c s].
  - cbn. destruct (startswith sep []); reflexivity.
  - cbn [length split_count]. destruct (find sep (c :: s)) as [[a b]|]; reflexivity.
Qed.

(** What line 53 computes: the text between the first [StreamTitle=] and
    the next one, up to its first semicolon, less the quotes around it. *)
Lemma extract_title_eq (metadata pre rest : text) :
  find (lit "StreamTitle=") metadata = Some (pre, rest) ->
  extract_title metadata
  = Ret (strip_chars (lit "'") (upto (lit ";") (upto (lit "StreamTitle=") rest))).
Proof.
  intros F. unfold extract_title.
  rewrite (split_unlimited_found _ _ _ _ F) by discriminate.
  change (index (?a :: ?l) 1) with (index l 0).
  rewrite index_split_0. cbn [obind]. rewrite index_split_0. reflexivity.
Qed.

(** Up to the first semicolon, and before it no [StreamTitle=]: the two
    cuts of line 53 leave what precedes the semicolon. *)
Lemma upto_field (v w : text) :
  ~ In 59%N v -> find (lit "StreamTitle=") v = None ->
  upto (lit ";") (upto (lit "StreamTitle=") (v ++ lit ";" ++ w)) = v.
Proof.
  intros Hs Hm.
  assert (U : exists z, upto (lit "StreamTitle=") (v ++ lit ";" ++ w)
                        = v ++ 59%N :: z).
  { unfold upto. change (lit ";" ++ w) with (59%N :: w).
    rewrite (find_skip _ _ 59%N w Hm).
    - destruct (find (lit "StreamTitle=") w) as [[x y]|]; eauto.
    - cbv. intuition discriminate. }
  destruct U as (z & ->). unfold upto.
  change (lit ";") with [59%N]. now rewrite find_char_first.
Qed.

(** X4. When no second [StreamTitle=] stands between the first one and
    the first semicolon behind it, the title is what stands between the two,
    less the quotes around it; a title that holds a semicolon is cut
    there. *)
Theorem title_is_field_value (metadata pre v w : text) :
  first_at (lit "StreamTitle=") metadata pre (v ++ lit ";" ++ w) ->
  ~ In 59%N v -> contains (lit "StreamTitle=") v = false ->
  extract_title metadata = Ret (strip_chars (lit "'") v).
Proof.
  intros H Hs Hm. apply first_at_find in H.
  rewrite (extract_title_eq _ _ _ H). do 2 f_equal.
  apply upto_field; [assumption|]. now apply contains_false.
Qed.

Lemma title_is_field_value_witness :
  extract_title (lit "StreamTitle='AC;DC - Song';StreamUrl='';")
  = Ret (strip_chars (lit "'") (lit "'AC")).
Proof.
  apply (title_is_field_value
           (lit "StreamTitle='AC;DC - Song';StreamUrl='';") []
           (lit "'AC") (lit "DC - Song';StreamUrl='';")).
  - apply find_first. reflexivity.
  - cbv. intuition discriminate.
  - reflexivity.
Defined.

Lemma lstrip_by_all (p : N -> bool) (l s : text) :
  forallb p l = true -> lstrip_by p (l ++ s) = lstrip_by p s.
Proof.
  induction l as [|c l IH]; cbn; intros H; [reflexivity|].
  apply andb_prop in H as [-> H]. now apply IH.
Qed.

(** [strip_by p s] is the only text that [s] trims to. *)
Lemma strip_by_of_trimmed (p : N -> bool) (s t : text) :
  trimmed p s t -> strip_by p s = t.
Proof.
  intros (l & r & -> & Hl & Hr & Hh & Ht). unfold strip_by, rstrip_by.
  rewrite lstrip_by_all by assumption.
  destruct t as [|c t].
  - cbn [app]. rewrite <- (app_nil_r r), lstrip_by_all by assumption.
    reflexivity.
  - cbn [app lstrip_by]. rewrite (Hh c t eq_refl).
    change (c :: t ++ r) with ((c :: t) ++ r).
    rewrite rev_app_distr, lstrip_by_all by now rewrite forallb_rev.
    destruct (exists_last (l := c :: t) ltac:(discriminate)) as (t' & d & E).
    rewrite E in *. rewrite rev_app_distr. cbn [rev app lstrip_by].
    rewrite (Ht d t' eq_refl). cbn. now rewrite rev_involutive.
Qed.

(** X5. Round trip of the title field: a block that holds
    [StreamTitle='title';] gives back [title], when the title holds no
    semicolon and no [StreamTitle=], and neither starts nor ends with a
    quote. *)
Theorem stream_title_round_trip (metadata pre title post : text) :
  first_at (lit "StreamTitle=") metadata pre
           (lit "'" ++ title ++ lit "';" ++ post) ->
  ~ In 59%N title -> contains (lit "StreamTitle=") title = false ->
  (forall c t', title = c :: t' -> c <> 39%N) ->
  (forall c t', title = t' ++ [c] -> c <> 39%N) ->
  extract_title metadata = Ret title
  /\ normalize metadata = (t <~ split_title title ;; Ret (Some t)).
Proof.
  intros H Hs Hm Hh Ht.
  assert (E : extract_title metadata = Ret title).
  { replace (lit "'" ++ title ++ lit "';" ++ post)
      with ((lit "'" ++ title ++ lit "'") ++ lit ";" ++ post) in H
      by (cbn; now rewrite <- !app_assoc).
    apply first_at_find in H. rewrite (extract_title_eq _ _ _ H).
    rewrite upto_field.
    - f_equal. apply strip_by_of_trimmed.
      exists (lit "'"), (lit "'"). repeat split; auto.
      + intros c t' Ec. destruct (N.eqb_spec c 39) as [->|Hn].
        * now apply Hh in Ec.
        * cbn. now rewrite (proj2 (N.eqb_neq c 39) Hn).
      + intros c t' Ec. destruct (N.eqb_spec c 39) as [->|Hn].
        * now apply Ht in Ec.
        * cbn. now rewrite (proj2 (N.eqb_neq c 39) Hn).
    - cbn [lit map list_ascii_of_string app]. intros [Hin|Hin]; [discriminate Hin|].
      apply in_app_or in Hin as [Hin|[Hin|[]]]; [contradiction|discriminate Hin].
    - apply contains_false in Hm.
      change (lit "'" ++ title ++ lit "'") with ([] ++ 39%N :: (title ++ 39%N :: [])).
      rewrite find_skip; [|reflexivity|cbv; intuition discriminate].
      rewrite find_skip; [reflexivity|assumption|cbv; intuition discriminate]. }
  split; [exact E|].
  unfold normalize. rewrite E.
  assert (C : contains (lit "StreamTitle=") metadata = true).
  { destruct H as [H _]. rewrite H. apply contains_occurrence. }
  rewrite C.
  destruct metadata; [discriminate C|reflexivity].
Qed.

Lemma stream_title_round_trip_witness :
  extract_title (lit "StreamUrl='x';StreamTitle='Artist X - Song Y';")
  = Ret (lit "Artist X - Song Y").
Proof.
  apply (stream_title_round_trip
           (lit "StreamUrl='x';StreamTitle='Artist X - Song Y';")
           (lit "StreamUrl='x';") (lit "Artist X - Song Y") []).
  - apply find_first. reflexivity.
  - cbv. intuition discriminate.
  - reflexivity.
  - intros c t' [= <- _]. discriminate.
  - intros c t' E.
    change (lit "Artist X - Song Y") with (lit "Artist X - Song " ++ [89%N]) in E.
    apply app_inj_tail in E as [_ <-]. discriminate.
Defined.

(** X6. A field that no semicolon ends is taken to the end of the block. *)
Theorem title_without_semicolon (metadata pre rest : text) :
  first_at (lit "StreamTitle=") metadata pre rest ->
  ~ In 59%N rest -> contains (lit "StreamTitle=") rest = false ->
  extract_title metadata = Ret (strip_chars (lit "'") rest).
Proof.
  intros H Hs Hm. apply first_at_find in H.
  rewrite (extract_title_eq _ _ _ H). do 2 f_equal.
  apply contains_false in Hm. unfold upto at 2. rewrite Hm.
  unfold upto. destruct (find (lit ";") rest) as [[a b]|] eqn:F; [|reflexivity].
  apply find_first in F as [-> _]. exfalso. apply Hs.
  apply in_or_app. right. now left.
Qed.

Lemma title_without_semicolon_witness :
  extract_title (lit "StreamTitle='Artist - So")
  = Ret (strip_chars (lit "'") (lit "'Artist - So")).
Proof.
  apply (title_without_semicolon (lit "StreamTitle='Artist - So") []).
  - apply find_first. reflexivity.
  - cbv. intuition discriminate.
  - reflexivity.
Defined.

Lemma strip_by_all (p : N -> bool) (s : text) :
  forallb p s = true -> strip_by p s = [].
Proof.
  intros H. apply strip_by_of_trimmed. exists s, [].
  rewrite app_nil_r. repeat split; auto; try discriminate.
  intros c t' E. now destruct t'.
Qed.

(** X7. A title of white space only, the empty title among them, is still a
    track: the artist is ["Unknown Artist"] and the track is empty. *)
Theorem blank_title_is_a_track (title : text) :
  forallb isspace title = true ->
  split_title title = Ret {| artist := lit "Unknown Artist"; track := [] |}.
Proof.
  intros H. unfold split_title.
  destruct (contains (lit " - ") title) eqn:C.
  - apply contains_elim in C as (a & b & ->).
    rewrite !forallb_app in H. apply andb_prop in H as [_ H].
    apply andb_prop in H as [H _]. discriminate H.
  - unfold strip. now rewrite strip_by_all.
Qed.

Lemma blank_title_is_a_track_witness :
  split_title (lit "  ") = Ret {| artist := lit "Unknown Artist"; track := [] |}.
Proof. apply blank_title_is_a_track. reflexivity. Defined.

(** *** The fields of a track *)

Lemma trimmed_clean (s t : text) : trimmed isspace s t -> clean t.
Proof. intros (l & r & _ & _ & _ & Hh & Ht). split; assumption. Qed.

Lemma clean_of_ends (s : text) :
  match s with [] => true | c :: _ => negb (isspace c) end = true ->
  match rev s with [] => true | c :: _ => negb (isspace c) end = true ->
  clean s.
Proof.
  intros H1 H2. split; intros c r E; subst s.
  - now apply negb_true_iff in H1.
  - rewrite rev_app_distr in H2. now apply negb_true_iff in H2.
Qed.

Lemma split_title_clean (title : text) (t : TrackInfo) :
  split_title title = Ret t -> clean (artist t) /\ clean (track t).
Proof.
  intros H. destruct (find (lit " - ") title) as [[a b]|] eqn:F.
  - rewrite (split_title_found _ _ _ F) in H. injection H as <-. cbn.
    split; eapply trimmed_clean; apply strip_by_trimmed.
  - rewrite (split_title_absent _ F) in H. injection H as <-. cbn. split.
    + apply clean_of_ends; reflexivity.
    + eapply trimmed_clean. apply strip_by_trimmed.
Qed.

Lemma normalize_clean (metadata : text) (t : TrackInfo) :
  normalize metadata = Ret (Some t) -> clean (artist t) /\ clean (track t).
Proof.
  unfold normalize. destruct (truthy metadata); [|discriminate].
  destruct (contains _ _); [|discriminate].
  destruct (extract_title metadata) as [|title]; [discriminate|]. cbn [obind].
  destruct (split_title title) as [|t'] eqn:S; [discriminate|]. cbn [obind].
  intros [= <-]. now apply split_title_clean in S.
Qed.

Lemma window_clean (metaint : Z) (c : cursor) (t : TrackInfo) :
  fst (window metaint c) = Ret (Some t) -> clean (artist t) /\ clean (track t).
Proof.
  rewrite window_factor. unfold bind, lift.
  destruct (next_block metaint c) as [[|metadata] c']; [discriminate|].
  cbn [fst]. apply normalize_clean.
Qed.

Lemma scan_clean (k : nat) (metaint : Z) (c : cursor) (t : TrackInfo) :
  fst (scan k metaint c) = Ret (Some t) -> clean (artist t) /\ clean (track t).
Proof.
  revert c; induction k as [|k IH]; intros c.
  - discriminate.
  - rewrite scan_S. pose proof (window_clean metaint c) as W.
    destruct (window metaint c) as [[|[t'|]] c']; cbn [fst] in *.
    + discriminate.
    + intros [= <-]. now apply W.
    + apply IH.
Qed.

(** X8. The fields of a track that [fetch_metadata] returns have no white
    space around them: the track never, the artist unless it is the station
    name of the [icy-name] header. *)
Theorem returned_fields_are_stripped (h : Headers) (body : bytes)
    (e : ending) (t : TrackInfo) :
  fetch_metadata (GetOk h body e) = Some t ->
  clean (track t) /\ (clean (artist t) \/ icy_name h = Some (artist t)).
Proof.
  intros H.
  assert (FB : fallback h = Some t ->
               clean (track t) /\ (clean (artist t) \/ icy_name h = Some (artist t))).
  { unfold fallback. destruct (icy_name h) as [name|]; [|discriminate].
    intros [= <-]. cbn. split; [|now right].
    apply clean_of_ends; reflexivity. }
  destruct (icy_metaint h) as [[|metaint]|] eqn:Hh.
  - now rewrite fetch_metadata_bad_int in H.
  - rewrite (fetch_metadata_declared _ _ _ _ Hh) in H.
    pose proof (scan_clean 10 metaint
                  {| remaining := body; at_end := e; reads := [] |}) as S.
    destruct (fst (scan 10 metaint _)) as [|[t'|]]; [discriminate| |auto].
    injection H as ->. destruct (S t eq_refl). auto.
  - rewrite fetch_metadata_undeclared in H by assumption. auto.
Qed.

Lemma returned_fields_are_stripped_witness :
  let t := {| artist := lit "Artist X"; track := lit "Song Y" |} in
  clean (track t) /\ (clean (artist t) \/ None = Some (artist t)).
Proof.
  intros t.
  apply (returned_fields_are_stripped
           {| icy_metaint := Some (IntOk 0); icy_name := None |}
           (x03 :: blit "StreamTitle=' Artist X  -  Song Y ';" ++ repeat x00 10)
           Eof t).
  vm_compute. reflexivity.
Defined.

(** *** The scan over whole frames *)

Lemma window_frame (metaint : Z) (f : frame) (rest : bytes) (e : ending)
    (log : list (site * Z)) :
  (0 <= metaint)%Z -> well_framed metaint f ->
  window metaint
    {| remaining := frame_bytes f ++ rest; at_end := e; reads := log |}
  = (normalize (decode_ignore (block f)),
     {| remaining := rest; at_end := e;
        reads := log ++ frame_reads metaint f |}).
Proof.
  intros Hm [Ha Hb]. destruct f as [a lb b]; cbn [audio length_byte block] in *.
  unfold frame_bytes, frame_reads; cbn [audio length_byte block].
  rewrite window_factor. unfold bind, lift. rewrite <- app_assoc. cbn [app].
  destruct (N.eqb_spec (Byte.to_N lb) 0) as [Z0|NZ].
  - assert (b = []) by (destruct b; [reflexivity|cbn in Hb; lia]). subst b.
    cbn [app]. now rewrite next_block_zero.
  - rewrite next_block_full by (auto; lia). reflexivity.
Qed.

(** The scan passes over frames without a title, one window each. *)
Lemma scan_silent_frames (fs : list frame) (k : nat) (metaint : Z)
    (rest : bytes) (e : ending) (log : list (site * Z)) :
  (0 <= metaint)%Z -> Forall (well_framed metaint) fs -> Forall silent fs ->
  scan (length fs + k) metaint
    {| remaining := frames_bytes fs ++ rest; at_end := e; reads := log |}
  = scan k metaint
      {| remaining := rest; at_end := e;
         reads := log ++ concat (map (frame_reads metaint) fs) |}.
Proof.
  intros Hm Hw Hs. revert log.
  induction fs as [|f fs IH]; intros log.
  - cbn. now rewrite app_nil_r.
  - inversion Hw as [|? ? Hf Hw']; inversion Hs as [|? ? Sf Hs']; subst.
    cbn [length Nat.add]. rewrite scan_S.
    unfold frames_bytes. cbn [map concat]. rewrite <- app_assoc.
    rewrite window_frame by assumption. rewrite Sf.
    fold (frames_bytes fs). rewrite (IH Hw' Hs'). now rewrite <- app_assoc.
Qed.

(** X9. The first title wins: behind fewer than ten frames without a title,
    the track of the next frame is returned, and nothing is read behind that
    frame. *)
Theorem first_title_is_returned (h : Headers) (metaint : Z)
    (fs : list frame) (f : frame) (rest : bytes) (e : ending) (t : TrackInfo) :
  icy_metaint h = Some (IntOk metaint) -> (0 <= metaint)%Z ->
  Forall (well_framed metaint) fs -> Forall silent fs -> length fs < 10 ->
  well_framed metaint f -> normalize (decode_ignore (block f)) = Ret (Some t) ->
  fetch_metadata_trace
    (GetOk h (frames_bytes fs ++ frame_bytes f ++ rest) e)
  = (Some t, concat (map (frame_reads metaint) (fs ++ [f]))).
Proof.
  intros Hh Hm Hw Hs Hl Hf Ht.
  unfold fetch_metadata_trace, fetch_body. rewrite Hh.
  unfold bind at 1. unfold bind at 1. unfold lift at 1.
  replace 10 with (length fs + S (9 - length fs)) by lia.
  rewrite scan_silent_frames by assumption.
  rewrite scan_S, window_frame by assumption. rewrite Ht.
  cbn [ret fst snd reads app]. rewrite map_app, concat_app. cbn [map concat].
  now rewrite app_nil_r.
Qed.

(** X10. The eleventh window is never read: behind ten frames without a
    title the call gives what the headers give, whatever follows in the
    body. *)
Theorem eleventh_window_is_not_read (h : Headers) (metaint : Z)
    (fs : list frame) (rest : bytes) (e : ending) :
  icy_metaint h = Some (IntOk metaint) -> (0 <= metaint)%Z ->
  Forall (well_framed metaint) fs -> Forall silent fs -> length fs = 10 ->
  fetch_metadata_trace (GetOk h (frames_bytes fs ++ rest) e)
  = (fallback h, concat (map (frame_reads metaint) fs)).
Proof.
  intros Hh Hm Hw Hs Hl.
  unfold fetch_metadata_trace, fetch_body. rewrite Hh.
  unfold bind at 1. unfold bind at 1. unfold lift at 1.
  replace 10 with (length fs + 0) by lia.
  rewrite scan_silent_frames by assumption. reflexivity.
Qed.

Lemma first_title_is_returned_witness :
  let quiet := {| audio := blit "abcd"; length_byte := x00; block := [] |} in
  let f := {| audio := blit "efgh"; length_byte := x02;
              block := blit "StreamTitle='Artist X - Song Y';" |} in
  fetch_metadata_trace
    (GetOk {| icy_metaint := Some (IntOk 4); icy_name := None |}
           (frames_bytes [quiet; quiet] ++ frame_bytes f ++ blit "more") Eof)
  = (Some {| artist := lit "Artist X"; track := lit "Song Y" |},
     concat (map (frame_reads 4) ([quiet; quiet] ++ [f]))).
Proof.
  intros quiet f.
  apply (first_title_is_returned
           {| icy_metaint := Some (IntOk 4); icy_name := None |} 4
           [quiet; quiet] f (blit "more") Eof).
  - reflexivity.
  - lia.
  - repeat constructor.
  - repeat constructor.
  - cbn. lia.
  - split; reflexivity.
  - reflexivity.
Defined.

Lemma eleventh_window_is_not_read_witness :
  let quiet := {| audio := blit "abcd"; length_byte := x00; block := [] |} in
  let f := {| audio := blit "efgh"; length_byte := x02;
              block := blit "StreamTitle='Artist X - Song Y';" |} in
  fetch_metadata_trace
    (GetOk {| icy_metaint := Some (IntOk 4); icy_name := None |}
           (frames_bytes (repeat quiet 10) ++ frame_bytes f) Eof)
  = (None, concat (map (frame_reads 4) (repeat quiet 10))).
Proof.
  intros quiet f.
  apply (eleventh_window_is_not_read
           {| icy_metaint := Some (IntOk 4); icy_name := None |} 4
           (repeat quiet 10) (frame_bytes f) Eof).
  - reflexivity.
  - lia.
  - repeat constructor.
  - repeat constructor.
  - reflexivity.
Defined.

(** *** The amounts read *)

Lemma window_sizes (metaint : Z) (c : cursor) :
  exists l, reads (snd (window metaint c)) = reads c ++ l /\
            Forall (well_sized metaint) l.
Proof.
  unfold window, bind.
  destruct (read Audio metaint c) as [o1 c1] eqn:R1.
  assert (L1 : reads c1 = reads c ++ [(Audio, metaint)])
    by (pose proof (read_log Audio metaint c) as L; now rewrite R1 in L).
  assert (W1 : Forall (well_sized metaint) [(Audio, metaint)])
    by (repeat constructor).
  destruct o1 as [|?]; [eauto|].
  destruct (read Length 1 c1) as [o2 c2] eqn:R2.
  assert (L2 : reads c2 = reads c ++ [(Audio, metaint); (Length, 1%Z)]).
  { pose proof (read_log Length 1 c1) as L. rewrite R2 in L. cbn [snd] in L.
    now rewrite L, L1, <- app_assoc. }
  assert (W2 : Forall (well_sized metaint) [(Audio, metaint); (Length, 1%Z)])
    by (repeat constructor).
  destruct o2 as [|len]; [eauto|].
  destruct (truthy len); [|eauto].
  unfold lift at 1. destruct len as [|x [|? ?]]; cbn [ord]; [eauto| |eauto].
  destruct (Z.gtb_spec (Z.of_N (Byte.to_N x) * 16) 0) as [Hp|Hp]; [|eauto].
  destruct (read Block _ c2) as [o3 c3] eqn:R3.
  assert (L3 : reads c3 = reads c ++ [(Audio, metaint); (Length, 1%Z);
                                      (Block, (Z.of_N (Byte.to_N x) * 16)%Z)]).
  { pose proof (read_log Block (Z.of_N (Byte.to_N x) * 16) c2) as L.
    rewrite R3 in L. cbn [snd] in L. now rewrite L, L2, <- app_assoc. }
  assert (W3 : Forall (well_sized metaint)
                 [(Audio, metaint); (Length, 1%Z);
                  (Block, (Z.of_N (Byte.to_N x) * 16)%Z)]).
  { repeat constructor; cbn [fst snd].
    - lia.
    - pose proof (Byte.to_N_bounded x). lia.
    - apply Z.mod_mul. lia. }
  exists [(Audio, metaint); (Length, 1%Z); (Block, (Z.of_N (Byte.to_N x) * 16)%Z)].
  split; [|exact W3].
  destruct o3 as [|raw]; [exact L3|].
  destruct (truthy (decode_ignore raw)); [|exact L3].
  destruct (contains _ _); [|exact L3].
  unfold lift, ret.
  destruct (extract_title _); [exact L3|].
  destruct (split_title _); exact L3.
Qed.

Lemma scan_sizes (k : nat) (metaint : Z) (c : cursor) :
  exists l, reads (snd (scan k metaint c)) = reads c ++ l /\
            Forall (well_sized metaint) l.
Proof.
  revert c; induction k as [|k IH]; intros c.
  - exists []. cbn. rewrite app_nil_r. auto.
  - rewrite scan_S. destruct (window_sizes metaint c) as (l1 & E1 & W1).
    destruct (window metaint c) as [[|[t|]] c1]; cbn [snd] in *; eauto.
    destruct (IH c1) as (l2 & E2 & W2).
    exists (l1 ++ l2). rewrite E2, E1, app_assoc. split; [reflexivity|].
    apply Forall_app. auto.
Qed.

(** X11. What a call asks of the body: at the audio skip the declared
    interval, at the length byte one byte, at a block a multiple of 16
    between 16 and 4080 bytes. *)
Theorem reads_are_well_sized (h : Headers) (metaint : Z) (body : bytes)
    (e : ending) :
  icy_metaint h = Some (IntOk metaint) ->
  Forall (well_sized metaint) (snd (fetch_metadata_trace (GetOk h body e))).
Proof.
  intros Hh. unfold fetch_metadata_trace, fetch_body. rewrite Hh.
  unfold bind at 1. unfold bind at 1. unfold lift at 1.
  destruct (scan_sizes 10 metaint
              {| remaining := body; at_end := e; reads := [] |})
    as (l & El & Wl).
  destruct (scan 10 metaint _) as [[|[t|]] c']; cbn in El |- *; now rewrite El.
Qed.

Lemma reads_are_well_sized_witness :
  Forall (well_sized 4)
    (snd (fetch_metadata_trace
            (GetOk {| icy_metaint := Some (IntOk 4); icy_name := None |}
                   (blit "abcd" ++ x02 :: blit "StreamTitle='Artist X - Song Y';")
                   Eof))).
Proof. apply reads_are_well_sized. reflexivity. Defined.

(** *** Results and headers *)

(** X12. On a body that ends in order nothing raises: with an [icy-name]
    header and an interval that parses, or none, [fetch_metadata] always
    returns a track. *)
Theorem station_name_gives_a_track (h : Headers) (name : text)
    (body : bytes) :
  icy_name h = Some name -> icy_metaint h <> Some ValueError ->
  exists t, fetch_metadata (GetOk h body Eof) = Some t.
Proof.
  intros Hn Hv.
  assert (FB : fallback h = Some {| artist := name; track := lit "Current Track" |})
    by (unfold fallback; now rewrite Hn).
  destruct (icy_metaint h) as [[|metaint]|] eqn:Hh; [congruence| |].
  - rewrite (fetch_metadata_declared _ _ _ _ Hh).
    pose proof (scan_raise 10 metaint
                  {| remaining := body; at_end := Eof; reads := [] |}) as R.
    destruct (fst (scan 10 metaint _)) as [|[t|]]; eauto.
    specialize (R eq_refl). discriminate R.
  - rewrite fetch_metadata_undeclared by assumption. eauto.
Qed.

Lemma station_name_gives_a_track_witness :
  exists t,
    fetch_metadata
      (GetOk {| icy_metaint := Some (IntOk 7); icy_name := Some (lit "Radio X") |}
             (blit "abc") Eof)
    = Some t.
Proof.
  apply (station_name_gives_a_track _ (lit "Radio X")).
  - reflexivity.
  - discriminate.
Defined.

(** *** The polling loop *)

(** X13. Only the status 200 counts as a success: a timeout, an exception or
    any other status is a failure, and without a track nothing is
    submitted. *)
Theorem submit_succeeds_only_on_200 (metadata : option TrackInfo)
    (net : post_outcome) :
  submit_to_listenbrainz metadata net = true
  <-> (exists m, metadata = Some m) /\ net = PostStatus 200.
Proof.
  destruct metadata as [m|]; cbn.
  - destruct net as [| | |code]; cbn; split;
      try discriminate; try (intros [_ H]; discriminate H).
    + destruct (Z.eqb_spec code 200); cbn; [|discriminate].
      subst. eauto.
    + intros [_ [= ->]]. reflexivity.
  - split; [discriminate|]. intros [[m H] _]. discriminate H.
Qed.

(** X15. What is stored was submitted: the track that a run leaves in
    [last_track] is the one it started with, or one that a cycle fetched and
    whose submission was answered with status 200. *)
Theorem stored_track_was_submitted (last_track : option TrackInfo)
    (obs : list (option TrackInfo * post_outcome)) :
  fst (run_on last_track obs) = last_track
  \/ exists t, fst (run_on last_track obs) = Some t /\
               In (Some t, PostStatus 200) obs.
Proof.
  revert last_track; induction obs as [|[metadata net] obs IH];
    intros last_track.
  - now left.
  - cbn [run_on].
    destruct (observe last_track metadata net) as [last' d] eqn:O.
    specialize (IH last'). destruct (run_on last' obs) as [final ds].
    cbn [fst] in *.
    assert (S : last' = last_track \/
                exists t, last' = Some t /\ metadata = Some t /\
                          net = PostStatus 200).
    { unfold observe in O. destruct (is_new metadata last_track).
      - destruct (submit_to_listenbrainz metadata net) eqn:Sb.
        + destruct metadata as [m|]; [|discriminate Sb].
          apply submit_success in Sb as ->.
          injection O as <- _. right. eauto.
        + injection O as <- _. now left.
      - injection O as <- _. now left. }
    destruct IH as [->|(t & -> & Hin)].
    + destruct S as [->|(t & -> & -> & ->)]; [now left|].
      right. exists t. split; [reflexivity|now left].
    + right. exists t. split; [reflexivity|now right].
Qed.

Lemma observe_same (t : TrackInfo) (net : post_outcome) :
  observe (Some t) (Some t) net = (Some t, Skip).
Proof.
  unfold observe.
  assert (N : is_new (Some t) (Some t) = false).
  { destruct (is_new (Some t) (Some t)) eqn:N; auto.
    apply is_new_iff in N. congruence. }
  now rewrite N.
Qed.

Lemma run_on_same (t : TrackInfo) (nets : list post_outcome) :
  run_on (Some t) (map (pair (Some t)) nets)
  = (Some t, repeat Skip (length nets)).
Proof.
  induction nets as [|net nets IH]; [reflexivity|].
  cbn [map run_on]. rewrite observe_same, IH. reflexivity.
Qed.

(** X16. A track that stays on air is reported at every cycle until its
    first successful submission, and at no cycle after it, whatever the
    network does then. *)
Theorem reported_until_submitted (last_track : option TrackInfo)
    (t : TrackInfo) (fails later : list post_outcome) :
  last_track <> Some t ->
  Forall (fun net => net <> PostStatus 200) fails ->
  run_on last_track (map (pair (Some t)) (fails ++ PostStatus 200 :: later))
  = (Some t, repeat Report (S (length fails)) ++ repeat Skip (length later)).
Proof.
  intros Hne Hf. induction Hf as [|net fails Hn _ IH].
  - cbn [app map run_on]. unfold observe.
    rewrite (proj2 (is_new_iff _ _) Hne).
    cbn [submit_to_listenbrainz Z.eqb Pos.eqb negb].
    rewrite run_on_same. reflexivity.
  - cbn [app map run_on]. unfold observe.
    rewrite (proj2 (is_new_iff _ _) Hne).
    destruct (submit_to_listenbrainz (Some t) net) eqn:Sb.
    + apply submit_success in Sb. contradiction.
    + rewrite IH. reflexivity.
Qed.

Lemma reported_until_submitted_witness :
  let t := {| artist := lit "Artist X"; track := lit "Song Y" |} in
  run_on None
    (map (pair (Some t))
         ([PostTimeout; PostStatus 503] ++ PostStatus 200 :: [PostTimeout]))
  = (Some t, repeat Report 3 ++ repeat Skip 1).
Proof.
  intros t. apply (reported_until_submitted None t).
  - discriminate.
  - repeat constructor; discriminate.
Defined.

(** X17. A submission that never succeeds is retried at every cycle, and
    [last_track] stays as it was. *)
Theorem retried_while_failing (last_track : option TrackInfo)
    (t : TrackInfo) (fails : list post_outcome) :
  last_track <> Some t ->
  Forall (fun net => net <> PostStatus 200) fails ->
  run_on last_track (map (pair (Some t)) fails)
  = (last_track, repeat Report (length fails)).
Proof.
  intros Hne Hf. induction Hf as [|net fails Hn _ IH]; [reflexivity|].
  cbn [map run_on]. unfold observe.
  rewrite (proj2 (is_new_iff _ _) Hne).
  destruct (submit_to_listenbrainz (Some t) net) eqn:Sb.
  - apply submit_success in Sb. contradiction.
  - rewrite IH. reflexivity.
Qed.

Lemma retried_while_failing_witness :
  run_on None
    (map (pair (Some {| artist := lit "A"; track := lit "x" |}))
         [PostTimeout; PostStatus 201; PostException])
  = (None, repeat Report 3).
Proof.
  apply retried_while_failing.
  - discriminate.
  - repeat constructor; discriminate.
Defined.



(** X19. A cycle whose fetch gives nothing does nothing: over cycles whose
    fetches all return [None] (the request raises, a read raises, the
    interval does not parse, no header is there), the run reports nothing and
    leaves [last_track] as it was. *)
Theorem failed_fetches_are_silent (last_track : option TrackInfo)
    (world : list (get_outcome * post_outcome)) :
  Forall (fun w => fetch_metadata (fst w) = None) world ->
  run last_track world = (last_track, repeat Skip (length world)).
Proof.
  intros H. unfold run.
  induction H as [|[g net] world Hg _ IH]; [reflexivity|].
  cbn [map run_on fst snd length repeat] in *. rewrite Hg.
  unfold observe at 1. cbn [is_new]. now rewrite IH.
Qed.

Lemma failed_fetches_are_silent_witness :
  let t := {| artist := lit "Artist X"; track := lit "Song Y" |} in
  run (Some t)
    [(GetRaised, PostStatus 200);
     (GetOk {| icy_metaint := Some ValueError; icy_name := Some (lit "Radio") |}
            (blit "abc") Eof, PostStatus 200);
     (GetOk {| icy_metaint := Some (IntOk 8); icy_name := Some (lit "Radio") |}
            (blit "abc") Fault, PostStatus 200)]
  = (Some t, repeat Skip 3).
Proof.
  intros t. apply (failed_fetches_are_silent (Some t)).
  repeat constructor.
Defined.


(** *** More on decoding, and the size of what is returned *)

(** X21. ASCII bytes decode to themselves, one character a byte, under
    either error handler. *)
Theorem ascii_decodes_to_itself (on_error : text) (bs : bytes) :
  Forall (fun b => (Byte.to_N b < 128)%N) bs ->
  utf8_decode on_error bs = map Byte.to_N bs.
Proof.
  induction 1 as [|b bs Hb _ IH]; [reflexivity|].
  rewrite utf8_decode_cons. cbv beta iota zeta delta [utf8_step].
  rewrite (proj2 (N.ltb_lt _ _) Hb), IH. reflexivity.
Qed.

Lemma ascii_decodes_to_itself_witness :
  utf8_decode [] (blit "StreamTitle='A - B';")
  = map Byte.to_N (blit "StreamTitle='A - B';").
Proof.
  apply ascii_decodes_to_itself. repeat constructor.
Defined.

Ltac length_split :=
  match goal with
  | |- length (if ?X then _ else _) <= _ =>
      match X with
      | context [(?a <? ?b)%N] => destruct (N.ltb_spec a b)
      | context [(?a <=? ?b)%N] => destruct (N.leb_spec a b)
      | context [(?a =? ?b)%N] => destruct (N.eqb_spec a b)
      end
  | |- length (match ?l with [] => _ | _ :: _ => _ end) <= _ => destruct l
  end; cbn [negb orb andb app].

Lemma decode_ignore_length (bs : bytes) :
  length (decode_ignore bs) <= length bs.
Proof.
  unfold decode_ignore.
  assert (G : forall n bs, length bs <= n ->
                           length (utf8_decode [] bs) <= length bs).
  { clear bs. induction n as [|n IH]; intros [|c0 r1] Hn; simpl in Hn;
      try (cbn; lia).
    rewrite utf8_decode_cons.
    cbv beta iota zeta delta [utf8_step is_continuation]. cbn [app].
    repeat length_split;
      repeat match goal with
        | |- length (_ :: utf8_decode [] ?r) <= _ =>
            let H := fresh in
            assert (H : length (utf8_decode [] r) <= length r)
              by (apply IH; simpl in *; lia);
            simpl in *; lia
        | |- length (utf8_decode [] ?r) <= _ =>
            let H := fresh in
            assert (H : length (utf8_decode [] r) <= length r)
              by (apply IH; simpl in *; lia);
            simpl in *; lia
        | |- length [] <= _ => simpl; lia
        end. }
  apply (G (length bs)). lia.
Qed.

Lemma strip_by_length (p : N -> bool) (s : text) :
  length (strip_by p s) <= length s.
Proof.
  destruct (strip_by_trimmed p s) as (l & r & E & _).
  rewrite E at 2. rewrite !length_app. lia.
Qed.

Lemma upto_length (sep s : text) : length (upto sep s) <= length s.
Proof.
  unfold upto. destruct (find sep s) as [[a b]|] eqn:F; [|lia].
  apply find_shorter in F. lia.
Qed.

Lemma extract_title_length (metadata title : text) :
  extract_title metadata = Ret title -> length title <= length metadata.
Proof.
  destruct (find (lit "StreamTitle=") metadata) as [[pre rest]|] eqn:F.
  - rewrite (extract_title_eq _ _ _ F). intros [= <-].
    unfold strip_chars.
    pose proof (strip_by_length (fun c => existsb (N.eqb c) (lit "'"))
                  (upto (lit ";") (upto (lit "StreamTitle=") rest))).
    pose proof (upto_length (lit ";") (upto (lit "StreamTitle=") rest)).
    pose proof (upto_length (lit "StreamTitle=") rest).
    apply find_shorter in F. lia.
  - unfold extract_title, split. cbn [Z.ltb Z.compare].
    destruct (length metadata); cbn [split_count]; rewrite ?F; discriminate.
Qed.

Lemma split_title_length (title : text) (t : TrackInfo) :
  split_title title = Ret t ->
  length (track t) <= length title /\
  (length (artist t) <= length title \/ artist t = lit "Unknown Artist").
Proof.
  intros H. destruct (find (lit " - ") title) as [[a b]|] eqn:F.
  - rewrite (split_title_found _ _ _ F) in H. injection H as <-. cbn.
    pose proof (strip_by_length isspace a). pose proof (strip_by_length isspace b).
    apply find_shorter in F. unfold strip. split; [|left]; lia.
  - rewrite (split_title_absent _ F) in H. injection H as <-. cbn.
    pose proof (strip_by_length isspace title). unfold strip. auto.
Qed.

Lemma normalize_length (metadata : text) (t : TrackInfo) :
  normalize metadata = Ret (Some t) ->
  length (track t) <= length metadata /\
  (length (artist t) <= length metadata \/ artist t = lit "Unknown Artist").
Proof.
  unfold normalize. destruct (truthy metadata); [|discriminate].
  destruct (contains _ _); [|discriminate].
  destruct (extract_title metadata) as [|title] eqn:E; [discriminate|].
  cbn [obind].
  destruct (split_title title) as [|t'] eqn:S; [discriminate|]. cbn [obind].
  intros [= <-]. apply extract_title_length in E.
  apply split_title_length in S as [S1 [S2|S2]]; split; auto; lia.
Qed.

(** A block is at most 4080 characters long. *)
Lemma next_block_length (metaint : Z) (c : cursor) (metadata : text) :
  fst (next_block metaint c) = Ret metadata -> length metadata <= 4080.
Proof.
  unfold next_block, bind.
  destruct (read Audio metaint c) as [[|?] c1]; [discriminate|].
  destruct (read Length 1 c1) as [[|len] c2]; [discriminate|].
  destruct (truthy len); [|cbn; intros [= <-]; cbn; lia].
  unfold lift at 1. destruct len as [|x [|? ?]]; cbn [ord]; try discriminate.
  destruct (_ >? 0)%Z; [|cbn; intros [= <-]; cbn; lia].
  pose proof (read_length Block (Z.of_N (Byte.to_N x) * 16) c2) as L.
  destruct (read Block _ c2) as [[|raw] c3]; [discriminate|].
  cbn [fst ret] in *. intros [= <-].
  pose proof (Byte.to_N_bounded x).
  specialize (L raw ltac:(lia) eq_refl).
  pose proof (decode_ignore_length raw). lia.
Qed.

Lemma scan_length (k : nat) (metaint : Z) (c : cursor) (t : TrackInfo) :
  fst (scan k metaint c) = Ret (Some t) ->
  length (track t) <= 4080 /\
  (length (artist t) <= 4080 \/ artist t = lit "Unknown Artist").
Proof.
  revert c; induction k as [|k IH]; intros c.
  - discriminate.
  - rewrite scan_S.
    destruct (window metaint c) as [[|[t'|]] c'] eqn:W; cbn [fst].
    + discriminate.
    + intros [= ->]. rewrite window_factor in W. unfold bind, lift in W.
      pose proof (next_block_length metaint c) as L.
      destruct (next_block metaint c) as [[|metadata] c1]; [discriminate|].
      injection W as W _. specialize (L metadata eq_refl).
      apply normalize_length in W as [W1 [W2|W2]]; split; auto; lia.
    + apply IH.
Qed.

(** X22. What a scan returns is bounded by the block: the track, and the
    artist, of a track found in the body are at most 4080 characters long. *)
Theorem found_track_is_bounded (h : Headers) (metaint : Z) (body : bytes)
    (e : ending) (t : TrackInfo) :
  icy_metaint h = Some (IntOk metaint) ->
  fetch_metadata (GetOk h body e) = Some t ->
  fallback h <> Some t ->
  length (track t) <= 4080 /\ length (artist t) <= 4080.
Proof.
  intros Hh H Hf. rewrite (fetch_metadata_declared _ _ _ _ Hh) in H.
  pose proof (scan_length 10 metaint
                {| remaining := body; at_end := e; reads := [] |}) as S.
  destruct (fst (scan 10 metaint _)) as [|[t'|]]; [discriminate| |congruence].
  injection H as ->. destruct (S t eq_refl) as [S1 [S2|S2]]; split; auto.
  rewrite S2. cbn. lia.
Qed.

Lemma found_track_is_bounded_witness :
  let t := {| artist := lit "Artist X"; track := lit "Song Y" |} in
  length (track t) <= 4080 /\ length (artist t) <= 4080.
Proof.
  intros t.
  apply (found_track_is_bounded
           {| icy_metaint := Some (IntOk 0); icy_name := None |} 0
           (x02 :: blit "StreamTitle='Artist X - Song Y';") Eof t).
  - reflexivity.
  - vm_compute. reflexivity.
  - discriminate.
Defined.

(** ** The lossy decoder, without the decoder *)

Lemma octet_eq (n : N) (b : byte) : n = Byte.to_N b -> octet n = b.
Proof. intros ->. unfold octet. now rewrite Byte.of_to_N. Qed.

Lemma encode_decoded_1 (c0 : byte) :
  (Byte.to_N c0 < 128)%N -> utf8_encode_char (Byte.to_N c0) = [c0].
Proof.
  intros H. unfold utf8_encode_char. rewrite (proj2 (N.ltb_lt _ _) H).
  f_equal. now apply octet_eq.
Qed.

Lemma encode_decoded_2 (c0 c1 : byte) :
  (194 <= Byte.to_N c0 < 224)%N -> (128 <= Byte.to_N c1 < 192)%N ->
  utf8_encode_char (N.shiftl (Byte.to_N c0) 6 + Byte.to_N c1
                    - (N.shiftl 192 6 + 128))%N
  = [c0; c1].
Proof.
  intros H0 H1. rewrite !N.shiftl_mul_pow2.
  set (cp := (Byte.to_N c0 * 2 ^ 6 + Byte.to_N c1 - (192 * 2 ^ 6 + 128))%N).
  assert (Ecp : cp = (64 * (Byte.to_N c0 - 192) + (Byte.to_N c1 - 128))%N)
    by (unfold cp; lia).
  destruct (base64_digits cp)
    as (r0 & r1 & r2 & q3 & E0 & E1 & E2 & E3 & E4 & E5 & Ec & B0 & B1 & B2).
  unfold utf8_encode_char.
  rewrite (proj2 (N.ltb_ge cp 128)) by lia.
  rewrite (proj2 (N.ltb_lt cp 2048)) by lia.
  rewrite E0, E5. repeat f_equal; apply octet_eq; lia.
Qed.

Lemma encode_decoded_3 (c0 c1 c2 : byte) :
  (224 <= Byte.to_N c0 < 240)%N -> (128 <= Byte.to_N c1 < 192)%N ->
  (128 <= Byte.to_N c2 < 192)%N ->
  (Byte.to_N c0 = 224 -> 160 <= Byte.to_N c1)%N ->
  utf8_encode_char (N.shiftl (Byte.to_N c0) 12 + N.shiftl (Byte.to_N c1) 6
                    + Byte.to_N c2
                    - (N.shiftl 224 12 + N.shiftl 128 6 + 128))%N
  = [c0; c1; c2].
Proof.
  intros H0 H1 H2 Hov. rewrite !N.shiftl_mul_pow2.
  set (cp := (Byte.to_N c0 * 2 ^ 12 + Byte.to_N c1 * 2 ^ 6 + Byte.to_N c2
              - (224 * 2 ^ 12 + 128 * 2 ^ 6 + 128))%N).
  assert (Ecp : cp = (4096 * (Byte.to_N c0 - 224) + 64 * (Byte.to_N c1 - 128)
                      + (Byte.to_N c2 - 128))%N)
    by (unfold cp; lia).
  destruct (base64_digits cp)
    as (r0 & r1 & r2 & q3 & E0 & E1 & E2 & E3 & E4 & E5 & Ec & B0 & B1 & B2).
  unfold utf8_encode_char.
  rewrite (proj2 (N.ltb_ge cp 128)) by lia.
  rewrite (proj2 (N.ltb_ge cp 2048)) by lia.
  rewrite (proj2 (N.ltb_lt cp 65536)) by lia.
  rewrite E0, E1, E4. repeat f_equal; apply octet_eq; lia.
Qed.

Lemma encode_decoded_4 (c0 c1 c2 c3 : byte) :
  (240 <= Byte.to_N c0 < 245)%N -> (128 <= Byte.to_N c1 < 192)%N ->
  (128 <= Byte.to_N c2 < 192)%N -> (128 <= Byte.to_N c3 < 192)%N ->
  (Byte.to_N c0 = 240 -> 144 <= Byte.to_N c1)%N ->
  utf8_encode_char (N.shiftl (Byte.to_N c0) 18 + N.shiftl (Byte.to_N c1) 12
                    + N.shiftl (Byte.to_N c2) 6 + Byte.to_N c3
                    - (N.shiftl 240 18 + N.shiftl 128 12 + N.shiftl 128 6
                       + 128))%N
  = [c0; c1; c2; c3].
Proof.
  intros H0 H1 H2 H3 Hov. rewrite !N.shiftl_mul_pow2.
  set (cp := (Byte.to_N c0 * 2 ^ 18 + Byte.to_N c1 * 2 ^ 12
              + Byte.to_N c2 * 2 ^ 6 + Byte.to_N c3
              - (240 * 2 ^ 18 + 128 * 2 ^ 12 + 128 * 2 ^ 6 + 128))%N).
  assert (Ecp : cp = (262144 * (Byte.to_N c0 - 240)
                      + 4096 * (Byte.to_N c1 - 128)
                      + 64 * (Byte.to_N c2 - 128) + (Byte.to_N c3 - 128))%N)
    by (unfold cp; lia).
  destruct (base64_digits cp)
    as (r0 & r1 & r2 & q3 & E0 & E1 & E2 & E3 & E4 & E5 & Ec & B0 & B1 & B2).
  unfold utf8_encode_char.
  rewrite (proj2 (N.ltb_ge cp 128)) by lia.
  rewrite (proj2 (N.ltb_ge cp 2048)) by lia.
  rewrite (proj2 (N.ltb_ge cp 65536)) by lia.
  rewrite E0, E1, E2, E3. repeat f_equal; apply octet_eq; lia.
Qed.

Ltac case_split :=
  match goal with
  | |- step_case _ _ (if ?X then _ else _) _ =>
      match X with
      | context [(?a <? ?b)%N] => destruct (N.ltb_spec a b)
      | context [(?a <=? ?b)%N] => destruct (N.leb_spec a b)
      | context [(?a =? ?b)%N] => destruct (N.eqb_spec a b)
      end
  | |- step_case _ _ (match ?l with [] => _ | _ :: _ => _ end) _ => destruct l
  end; cbn [negb orb andb app].

Ltac case_kept :=
  left;
  refine (ex_intro _ _ (ex_intro _ _ (conj _ (conj _ eq_refl))));
  [ apply is_scalar_intro; rewrite ?N.shiftl_mul_pow2; lia
  | first [ rewrite encode_decoded_1 by lia
          | rewrite encode_decoded_2 by lia
          | rewrite encode_decoded_3 by lia
          | rewrite encode_decoded_4 by lia ];
    reflexivity ].

Ltac case_dropped :=
  right; split;
  [ eexists; reflexivity
  | repeat match goal with
           | |- ?k = utf8_decode [] (?x :: ?r) =>
               tryif constr_eq k (utf8_decode [] (x :: r)) then fail
               else (rewrite (utf8_decode_invalid_start [] x r) by lia;
                     cbn [app])
           end;
    reflexivity ].

(** Each step of the decoder decodes the encoding of a scalar value or
    drops one byte at which no encoding starts. *)
Lemma utf8_step_case (c0 : byte) (r1 : bytes) :
  step_case c0 r1 (utf8_step [] (utf8_decode []) c0 r1)
            (utf8_step [1114112%N] (utf8_decode [1114112%N]) c0 r1).
Proof.
  cbv beta iota zeta delta [utf8_step is_continuation]. cbn [app].
  repeat case_split; first [case_kept | case_dropped].
Qed.

Lemma utf8_encode_char_length (c : N) : 1 <= length (utf8_encode_char c).
Proof.
  unfold utf8_encode_char.
  destruct (c <? 128)%N; [cbn; lia|].
  destruct (c <? 2048)%N; [cbn; lia|].
  destruct (c <? 65536)%N; cbn; lia.
Qed.

(** At every position of the input the encoding of a scalar value starts,
    and the ignoring decoder gives that character, or none does, and the
    decoder drops the byte. *)
Lemma decode_ignore_position (b : byte) (rest : bytes) :
  (exists c r,
      is_scalar c = true /\ b :: rest = utf8_encode_char c ++ r /\
      decode_ignore (b :: rest) = c :: decode_ignore r)
  \/ ((forall c r, is_scalar c = true -> b :: rest <> utf8_encode_char c ++ r)
      /\ decode_ignore (b :: rest) = decode_ignore rest).
Proof.
  unfold decode_ignore.
  destruct (utf8_step_case b rest)
    as [(cp & r' & Hs & Hb & Hk)|[(t & Hm) Hk]].
  - left. exists cp, r'. rewrite utf8_decode_cons. auto.
  - right. split; [|now rewrite utf8_decode_cons].
    intros c r Hc E.
    rewrite <- utf8_decode_cons, E, utf8_decode_encode_char in Hm
      by assumption.
    injection Hm as -> _. discriminate Hc.
Qed.

Lemma decode_ignore_lossy (bs : bytes) : lossy bs (decode_ignore bs).
Proof.
  assert (G : forall n bs, length bs <= n -> lossy bs (decode_ignore bs)).
  { clear bs. induction n as [|n IH]; intros [|b rest] Hn; simpl in Hn;
      try (constructor; fail); try lia.
    destruct (decode_ignore_position b rest)
      as [(c & r & Hc & Hb & ->)|[Hno ->]].
    - rewrite Hb. apply lossy_keep; [assumption|]. apply IH.
      apply (f_equal (@length byte)) in Hb. rewrite length_app in Hb.
      pose proof (utf8_encode_char_length c). simpl in Hb. lia.
    - apply lossy_drop; [assumption|]. apply IH. lia. }
  apply (G (length bs)). lia.
Qed.

Lemma lossy_unique (bs : bytes) (t : text) :
  lossy bs t -> t = decode_ignore bs.
Proof.
  induction 1 as [|c rest t Hc _ IH|b rest t Hno _ IH].
  - reflexivity.
  - unfold decode_ignore in *.
    now rewrite utf8_decode_encode_char, <- IH by assumption.
  - destruct (decode_ignore_position b rest)
      as [(c & r & Hc & Hb & _)|[_ ->]]; [|assumption].
    now apply Hno in Hb.
Qed.

Example ex_broken_sequences_are_dropped :
  decode_ignore [xe2; x82; x41; xed; xa0; x80; x42; xf0; x9f; x98] = lit "AB"
  /\ decode_replace [xe2; x82; x41; xf0; x9f; x98] = [65533; 65; 65533]%N.
Proof. split; reflexivity. Qed.

(** C9, as the code has it. Decoding is permissive and lossy: whatever
    the bytes, nothing is raised (a window raises only when the transport
    fails) and the result is the well-formed text that is left when every
    invalid byte sequence is dropped: read from left to right, the encoding
    of a scalar value gives that character and a byte at which no encoding
    starts gives nothing, and no other text is so. No replacement character
    stands for an error: the text is the one of the replacing decoder less
    such characters, and a byte above 127 between two well-formed texts
    leaves the two texts, one after the other. *)
Theorem decoding_drops_invalid_bytes (bs : bytes) (t1 t2 : text) (b : byte) :
  lossy bs (decode_ignore bs)
  /\ (forall t, lossy bs t -> t = decode_ignore bs)
  /\ scalar_text (decode_ignore bs)
  /\ without_marks (decode_ignore bs) (decode_replace bs)
  /\ (forall metaint c, fst (window metaint c) = Raise -> at_end c = Fault)
  /\ (scalar_text t1 -> scalar_text t2 -> (128 <= Byte.to_N b)%N ->
      decode_ignore (utf8_encode t1 ++ b :: utf8_encode t2) = t1 ++ t2
      /\ decode_replace (utf8_encode t1 ++ b :: utf8_encode t2)
         = t1 ++ 65533%N :: t2).
Proof.
  split; [apply decode_ignore_lossy|].
  split; [apply lossy_unique|].
  split; [apply utf8_decode_scalar; constructor|].
  split; [apply decode_ignore_without_marks|].
  split; [exact window_raise|].
  intros H1 H2 Hb. unfold decode_ignore, decode_replace.
  rewrite (utf8_decode_encode [] t1), (utf8_decode_encode [65533%N] t1)
    by assumption.
  rewrite !utf8_decode_stray by assumption.
  split; reflexivity.
Qed.

Lemma decoding_drops_invalid_bytes_witness :
  decode_ignore (utf8_encode (lit "Beyonc") ++ xe9 :: utf8_encode (lit " - Halo"))
  = lit "Beyonc" ++ lit " - Halo".
Proof.
  destruct (decoding_drops_invalid_bytes [] (lit "Beyonc") (lit " - Halo") xe9)
    as (_ & _ & _ & _ & _ & H).
  apply H.
  - repeat constructor.
  - repeat constructor.
  - cbn. lia.
Defined.

(** ** Empty blocks *)




